(** * janus: a scalar reverse-mode autograd engine (janus/_src/tensor.py)

    A shallow embedding of [Tensor], [Function] and [Add] and of the
    backward pass, over an explicit object heap: Python objects have
    identity and mutable attributes, and the same leaf can be an operand of
    several nodes, so tensors are referred to by address and [backward]
    threads the heap through its recursive calls.

    Python's [float] is IEEE 754 binary64, which is Rocq's primitive
    [float]; [+] and [*] on floats below are the primitive binary64
    operations, specified by the Standard Library against [SpecFloat]. *)

From Stdlib Require Import Floats ZArith Lia.
From stdpp Require Import base option list strings.

Open Scope nat_scope.

(** ** Python values and exceptions *)

(** The values that can reach a parameter checked with [isinstance]. *)
Inductive value : Type :=
| VNone
| VBool (b : bool)
| VInt (z : Z)
| VFloat (f : float)
| VStr (s : string).

(** [isinstance(v, float)]: [bool] is a subclass of [int], not of [float]. *)
Definition isinstance_float (v : value) : bool :=
  match v with VFloat _ => true | _ => false end.

(** [isinstance(v, int)]: true of [int] and of its subclass [bool]. *)
Definition isinstance_int (v : value) : bool :=
  match v with VInt _ | VBool _ => true | _ => false end.

Inductive exn : Type :=
| TypeError
| NotImplementedError
| IndexError
| RecursionError
| InvalidReference. (* an address that denotes no object: no Python
                       counterpart, heaps built by the API have none *)

(** ** Objects and the heap *)

Abbreviation addr := nat (only parsing). (* identity of a Tensor object *)
Abbreviation fref := nat (only parsing). (* identity of a Function object *)

(** The classes of tensor.py that derive from (or are) [Function]. *)
Inductive fclass : Type := Function_cls | Add_cls.

(** A [Function] instance: [tensors] and [output] are set by [__call__]
    and are missing on a fresh instance. *)
Record FunctionObj : Type := mkFunction {
  fn_class : fclass;
  tensors : option (list addr);
  output : option float
}.

(** A [Tensor] instance, attribute by attribute. *)
Record Tensor : Type := mkTensor {
  data : float;
  creators : option (list addr);
  creation_op : option fref;
  grad : option float
}.

Record heap : Type := mkHeap {
  tensor_objs : list Tensor;
  function_objs : list FunctionObj
}.

Definition empty_heap : heap := mkHeap [] [].

Definition with_grad (t : Tensor) (g : option float) : Tensor :=
  mkTensor (data t) (creators t) (creation_op t) g.

Definition set_tensor (a : addr) (t : Tensor) (h : heap) : heap :=
  mkHeap (<[a := t]> (tensor_objs h)) (function_objs h).

Definition set_function (r : fref) (f : FunctionObj) (h : heap) : heap :=
  mkHeap (tensor_objs h) (<[r := f]> (function_objs h)).

Definition get_tensor (h : heap) (a : addr) : option Tensor := tensor_objs h !! a.
Definition get_function (h : heap) (r : fref) : option FunctionObj := function_objs h !! r.

(** ** Computations: state passing with exceptions

    A raised exception carries the heap at the point of the raise, so that
    what a failed call has already mutated stays observable. *)

Inductive outcome (A : Type) : Type :=
| Ok (a : A) (h : heap)
| Raise (e : exn) (h : heap).
Arguments Ok {A} a h.
Arguments Raise {A} e h.

Definition M (A : Type) : Type := heap -> outcome A.

Definition ret {A} (a : A) : M A := fun h => Ok a h.
Definition raise {A} (e : exn) : M A := fun h => Raise e h.
Definition bind {A B} (m : M A) (k : A -> M B) : M B :=
  fun h => match m h with
           | Ok a h' => k a h'
           | Raise e h' => Raise e h'
           end.

Declare Scope py_scope.
Delimit Scope py_scope with py.
Notation "x <- m ;; k" := (bind m (fun x => k))
  (at level 100, m at next level, right associativity) : py_scope.
Notation "m ;;; k" := (bind m (fun _ => k))
  (at level 100, right associativity) : py_scope.
Open Scope py_scope.

Definition final_heap {A} (o : outcome A) : heap :=
  match o with Ok _ h => h | Raise _ h => h end.

Definition succeeded {A} (o : outcome A) : bool :=
  match o with Ok _ _ => true | Raise _ _ => false end.

(** [for i, x in enumerate(l): body(i, x)], stopping at the first raise. *)
Fixpoint for_enumerate {A} (body : nat -> A -> M unit) (l : list A) (i : nat) : M unit :=
  match l with
  | [] => ret tt
  | x :: l' => fun h =>
      match body i x h with
      | Ok _ h' => for_enumerate body l' (S i) h'
      | Raise e h' => Raise e h'
      end
  end.

(** ** class Tensor *)

(** [Tensor.__init__(self, data, creators=None, creation_op=None)]: the
    object joins the heap only when [__init__] returns. *)
Definition Tensor_init (d : value) (cs : option (list addr)) (op : option fref) : M addr :=
  fun h =>
    match d with
    | VFloat x =>
        Ok (length (tensor_objs h))
           (mkHeap (tensor_objs h ++ [mkTensor x cs op None]) (function_objs h))
    | _ => Raise TypeError h
    end.

(** ** class Function and class Add *)

(** [Function.forward]: abstract. *)
Definition Function_forward (inputs : list float) : exn + float :=
  inl NotImplementedError.

(** [Function.backward]: abstract. *)
Definition Function_backward (g : float) : exn + list float :=
  inl NotImplementedError.

(** [Add.forward(self, x, y)], called as [self.forward( *inputs )]: any
    other number of positional arguments is a [TypeError]. *)
Definition Add_forward (inputs : list float) : exn + float :=
  match inputs with
  | [x; y] => inr (x + y)%float
  | _ => inl TypeError
  end.

(** [Add.backward(self, grad)]: the tuple [(grad, grad)]. *)
Definition Add_backward (g : float) : exn + list float :=
  inr [g; g].

(** Method resolution. *)
Definition forward_of (c : fclass) : list float -> exn + float :=
  match c with Function_cls => Function_forward | Add_cls => Add_forward end.

Definition backward_of (c : fclass) : float -> exn + list float :=
  match c with Function_cls => Function_backward | Add_cls => Add_backward end.

(** Instantiation [cls()]: neither class defines [__init__]. *)
Definition Function_new (c : fclass) : M fref :=
  fun h =>
    Ok (length (function_objs h))
       (mkHeap (tensor_objs h) (function_objs h ++ [mkFunction c None None])).

(** [[t.data for t in tensors]]. *)
Fixpoint read_data (ts : list addr) : M (list float) :=
  match ts with
  | [] => ret []
  | t :: ts' => fun h =>
      match get_tensor h t with
      | None => Raise InvalidReference h
      | Some o =>
          match read_data ts' h with
          | Ok ds h' => Ok (data o :: ds) h'
          | Raise e h' => Raise e h'
          end
      end
  end.

(** [Function.__call__(self, *tensors)]. *)
Definition Function_call (self : fref) (ts : list addr) : M addr :=
  fun h =>
    match get_function h self with
    | None => Raise InvalidReference h
    | Some f =>
        (* self.tensors = tensors *)
        let f1 := mkFunction (fn_class f) (Some ts) (output f) in
        let h1 := set_function self f1 h in
        match read_data ts h1 with
        | Raise e h2 => Raise e h2
        | Ok ds h2 =>
            match forward_of (fn_class f) ds with
            | inl e => Raise e h2
            | inr out =>
                (* self.output = ... *)
                let h3 := set_function self (mkFunction (fn_class f) (Some ts) (Some out)) h2 in
                Tensor_init (VFloat out) (Some ts) (Some self) h3
            end
        end
    end.

(** [Tensor.__add__(self, other)]: [Add()(self, other)]. *)
Definition Tensor_add (self other : addr) : M addr :=
  f <- Function_new Add_cls ;; Function_call f [self; other].

(** The accumulation statement
    [self.grad = grad if self.grad is None else self.grad + grad]. *)
Definition accumulate (old : option float) (g : float) : float :=
  match old with
  | None => g
  | Some g0 => (g0 + g)%float
  end.

(** The body of the loop of [backward],
    [creator.backward(grads[i])], with the recursive call as [rec]. *)
Definition propagate (rec : addr -> value -> M unit) (grads : list float)
  (i : nat) (creator : addr) : M unit :=
  fun h =>
    match grads !! i with
    | None => Raise IndexError h
    | Some gi => rec creator (VFloat gi) h
    end.

(** [Tensor.backward(self, grad)]. [fuel] is the depth of recursion the
    interpreter still allows; exhausting it is Python's [RecursionError]. *)
Fixpoint Tensor_backward (fuel : nat) (self : addr) (g : value) (h : heap) {struct fuel}
  : outcome unit :=
  match fuel with
  | 0 => Raise RecursionError h
  | S fuel' =>
      match g with
      | VFloat gr =>
          match get_tensor h self with
          | None => Raise InvalidReference h
          | Some t =>
              (* Accumulate gradients. *)
              let h1 := set_tensor self (with_grad t (Some (accumulate (grad t) gr))) h in
              match creation_op t with
              | None => Ok tt h1
              | Some op =>
                  match get_function h1 op with
                  | None => Raise InvalidReference h1
                  | Some f =>
                      match backward_of (fn_class f) gr with
                      | inl e => Raise e h1
                      | inr grads =>
                          match creators t with
                          | None => Raise TypeError h1 (* enumerate(None) *)
                          | Some cs =>
                              for_enumerate
                                (propagate (Tensor_backward fuel') grads) cs 0 h1
                          end
                      end
                  end
              end
          end
      | _ => Raise TypeError h
      end
  end.

(** ** Tensor.__repr__

    The f-string formats [self.data] with [str] of a float and
    [self.creation_op] with the default [repr] of an instance (its class
    and its identity); both are built-ins of the interpreter and are
    taken as parameters. [self.creators] is formatted by [list]'s repr,
    which calls [Tensor.__repr__] on every element.

    One nesting level of printing takes several units of the
    interpreter's recursion limit (the frame of [__repr__], [str] of the
    list, the repr of the list, [repr] of the element), their number
    being a matter of the interpreter. The limit is therefore not
    modelled for printing: [fuel] bounds the nested [__repr__] calls that
    are followed, and [Unfinished] is the answer when the bound is used
    up. [Unfinished] is not an outcome of the code, and a
    [RecursionError] raised while printing is outside this model; what
    the model gives is the value of [repr] when the interpreter lets it
    run to its end. *)

Inductive stop : Type :=
  | Unfinished
  | Raised (e : exn).

Section Repr.
Variable float_str : float -> string.
Variable object_str : fclass -> fref -> string.

(** [f(x) for x in l], stopping at the first element that gives no value. *)
Fixpoint map_exn {E A B} (f : A -> E + B) (l : list A) : E + list B :=
  match l with
  | [] => inr []
  | x :: l' =>
      match f x with
      | inl e => inl e
      | inr y =>
          match map_exn f l' with
          | inl e => inl e
          | inr ys => inr (y :: ys)
          end
      end
  end.

(** [repr] of a list whose elements print as [items]. *)
Definition list_repr (items : list string) : string :=
  "[" +:+ String.concat ", " items +:+ "]".

(** [Tensor.__repr__(self)]; [fuel] is the number of nested [__repr__]
    calls still followed. *)
Fixpoint Tensor_repr (fuel : nat) (h : heap) (self : addr) {struct fuel} : stop + string :=
  match fuel with
  | 0 => inl Unfinished
  | S fuel' =>
      match get_tensor h self with
      | None => inl (Raised InvalidReference)
      | Some t =>
          match
            match creators t with
            | None => inr "None"
            | Some cs =>
                match map_exn (Tensor_repr fuel' h) cs with
                | inl e => inl e
                | inr items => inr (list_repr items)
                end
            end
          with
          | inl e => inl e
          | inr cs_str =>
              match
                match creation_op t with
                | None => inr "None"
                | Some op =>
                    match get_function h op with
                    | None => inl (Raised InvalidReference)
                    | Some f => inr (object_str (fn_class f) op)
                    end
                end
              with
              | inl e => inl e
              | inr op_str =>
                  inr ("Tensor(data=" +:+ float_str (data t)
                       +:+ ", creators=" +:+ cs_str
                       +:+ ", creation_op=" +:+ op_str +:+ ")")
              end
          end
      end
  end.
End Repr.

(** ** Binary operators on tensors

    [a op b] looks the operator's method up on the class of [a], then the
    reflected method on the class of [b]; class [Tensor] defines [__add__]
    and nothing else, so every other operator on two tensors raises
    [TypeError] (unsupported operand types). *)
Inductive binop : Type := OpAdd | OpSub | OpMul | OpTrueDiv.

Definition Tensor_method (op : binop) : option (addr -> addr -> M addr) :=
  match op with
  | OpAdd => Some Tensor_add
  | _ => None
  end.

Definition Tensor_reflected_method (op : binop) : option (addr -> addr -> M addr) :=
  None.

Definition binary_op (op : binop) (a b : addr) : M addr :=
  match Tensor_method op with
  | Some m => m a b
  | None =>
      match Tensor_reflected_method op with
      | Some m => m b a
      | None => raise TypeError
      end
  end.

(** ** The unit tests of tensor_test.py, as computations *)

Definition f1 : float := 1%float.
Definition f2 : float := 2%float.
Definition f3 : float := 3%float.
Definition f4 : float := 4%float.

Definition recursion_limit : nat := 1000.

Definition test_addition_backward : M (addr * addr * addr) :=
  t1 <- Tensor_init (VFloat f1) None None ;;
  t2 <- Tensor_init (VFloat f2) None None ;;
  t3 <- binary_op OpAdd t1 t2 ;;
  Tensor_backward recursion_limit t3 (VFloat f1) ;;;
  ret (t1, t2, t3).

Definition test_multiplication_forward : M addr :=
  t1 <- Tensor_init (VFloat f2) None None ;;
  t2 <- Tensor_init (VFloat f4) None None ;;
  binary_op OpMul t1 t2.

Definition test_multiplication_backward : M (addr * addr * addr) :=
  t1 <- Tensor_init (VFloat f2) None None ;;
  t2 <- Tensor_init (VFloat f4) None None ;;
  t3 <- binary_op OpMul t1 t2 ;;
  Tensor_backward recursion_limit t3 (VFloat f1) ;;;
  ret (t1, t2, t3).

(** * Vocabulary of the statements *)

(** ** Shapes: everything in a heap except the gradients *)

Definition strip (t : Tensor) : Tensor := with_grad t None.

(** [h'] has the function objects of [h] and the same nodes, up to their
    gradients. *)
Definition same_shape (h h' : heap) : Prop :=
  function_objs h' = function_objs h /\
  strip <$> tensor_objs h' = strip <$> tensor_objs h.

(** ** Paths of the graph and what a pass delivers along them *)

(** The number of paths from node [n] to node [a] along the [creators] of
    the nodes that have a [creation_op] (the edges [backward] follows),
    of length below [fuel]. *)
Fixpoint paths (fuel : nat) (h : heap) (n a : addr) {struct fuel} : nat :=
  match fuel with
  | 0 => 0
  | S fuel' =>
      (if decide (n = a) then 1 else 0) +
      match get_tensor h n with
      | Some t =>
          match creation_op t, creators t with
          | Some _, Some cs => sum_list_with (fun c => paths fuel' h c a) cs
          | _, _ => 0
          end
      | None => 0
      end
  end.

(** The gradient field after [k] contributions of [g]. *)
Definition deliver (k : nat) (g : float) (old : option float) : option float :=
  Nat.iter k (fun o => Some (accumulate o g)) old.

(** The node [t] after [k] contributions of [g]. *)
Definition receive (k : nat) (g : float) (t : Tensor) : Tensor :=
  with_grad t (deliver k g (grad t)).

(** [h'] is [h] with some number of contributions of [g] added to each
    gradient. *)
Definition accumulated (g : float) (h h' : heap) : Prop :=
  forall a, exists k, get_tensor h' a = receive k g <$> get_tensor h a.

(** ** Well-formed heaps *)

Definition is_Add (c : fclass) : bool :=
  match c with Add_cls => true | Function_cls => false end.

(** A node is either a leaf as [Tensor(data)] makes it, or the result of
    an [Add] applied to two nodes that existed before it. *)
Definition node_ok (h : heap) (a : addr) (t : Tensor) : bool :=
  match creation_op t, creators t with
  | None, None => true
  | Some op, Some [c1; c2] =>
      match get_function h op with
      | Some f => is_Add (fn_class f) && (c1 <? a) && (c2 <? a)
      | None => false
      end
  | _, _ => false
  end.

Fixpoint nodes_ok (h : heap) (a : addr) (l : list Tensor) : bool :=
  match l with
  | [] => true
  | t :: l' => node_ok h a t && nodes_ok h (S a) l'
  end.

Definition well_formed (h : heap) : bool := nodes_ok h 0 (tensor_objs h).

(** [h'] has every function object of [h], with its class. *)
Definition fn_ext (h h' : heap) : Prop :=
  forall op f, get_function h op = Some f ->
    exists f', get_function h' op = Some f' /\ fn_class f' = fn_class f.

(** ** Heaps built through the public API

    [Tensor(v)] with the default [creators] and [creation_op], the
    instantiation and the application of a [Function], [x + y] and
    [n.backward(g)]; a call that raises still leaves its heap behind. *)

Inductive api_call : Type :=
| NewScalar (v : value)
| NewFunction (c : fclass)
| Apply (f : fref) (ts : list addr)
| Plus (x y : addr)
| Backward (fuel : nat) (n : addr) (g : value).

Definition run_call (h : heap) (c : api_call) : heap :=
  match c with
  | NewScalar v => final_heap (Tensor_init v None None h)
  | NewFunction c => final_heap (Function_new c h)
  | Apply f ts => final_heap (Function_call f ts h)
  | Plus x y => final_heap (Tensor_add x y h)
  | Backward fuel n g => final_heap (Tensor_backward fuel n g h)
  end.

Definition run_calls (cs : list api_call) : heap := fold_left run_call cs empty_heap.

(** ** Scenarios *)

(** x = Tensor(a); y = Tensor(b); z = x + y *)
Definition build_sum (a b : float) : M (addr * addr * addr) :=
  x <- Tensor_init (VFloat a) None None ;;
  y <- Tensor_init (VFloat b) None None ;;
  z <- binary_op OpAdd x y ;;
  ret (x, y, z).

(** x = Tensor(a); p = x + x *)
Definition build_double (a : float) : M (addr * addr) :=
  x <- Tensor_init (VFloat a) None None ;;
  p <- binary_op OpAdd x x ;;
  ret (x, p).

(** x = Tensor(a); y = Tensor(b); w = Tensor(c);
    p = x + y; q = x + w; s = p + q *)
Definition build_diamond (a b c : float) : M (addr * addr) :=
  x <- Tensor_init (VFloat a) None None ;;
  y <- Tensor_init (VFloat b) None None ;;
  w <- Tensor_init (VFloat c) None None ;;
  p <- binary_op OpAdd x y ;;
  q <- binary_op OpAdd x w ;;
  s <- binary_op OpAdd p q ;;
  ret (x, s).

(** x = x + c, [n] times *)
Fixpoint chain (n : nat) (x c : addr) : M addr :=
  match n with
  | 0 => ret x
  | S n' => y <- binary_op OpAdd x c ;; chain n' y c
  end.

(** c = Tensor(1.0); x = c; then x = x + c, [n] times: a graph of depth
    [n], built with the API alone. *)
Definition build_chain (n : nat) : M addr :=
  c <- Tensor_init (VFloat f1) None None ;;
  chain n c c.

(** t = Tensor(2.0, creators=[x], creation_op=Function()) on a leaf x *)
Definition build_abstract_rule : M (addr * addr) :=
  x <- Tensor_init (VFloat f1) None None ;;
  op <- Function_new Function_cls ;;
  t <- Tensor_init (VFloat f2) (Some [x]) (Some op) ;;
  ret (x, t).

(** x, y, w leaves; t = Tensor(4.0, creators=[x, y, w], creation_op=Add()):
    [Add.backward] returns two gradients for three operands. *)
Definition build_arity_mismatch : M addr :=
  x <- Tensor_init (VFloat f1) None None ;;
  y <- Tensor_init (VFloat f2) None None ;;
  w <- Tensor_init (VFloat f3) None None ;;
  op <- Function_new Add_cls ;;
  Tensor_init (VFloat f4) (Some [x; y; w]) (Some op).

(** ** The graph a pass works on

    What [backward] reads of a heap: of a node its [creators], its
    [creation_op] and its [grad], of a function object its class. *)

Definition erase_data (t : Tensor) : Tensor :=
  mkTensor 0%float (creators t) (creation_op t) (grad t).

Definition graph_of (h : heap) : list Tensor * list fclass :=
  (erase_data <$> tensor_objs h, fn_class <$> function_objs h).

(** The exception raised, if any, and the graph left. *)
Definition skeleton (o : outcome unit) : option exn * (list Tensor * list fclass) :=
  match o with
  | Ok _ h => (None, graph_of h)
  | Raise e h => (Some e, graph_of h)
  end.

(** One accumulation of [g] into the gradient of node [c]. *)
Definition accumulate_at (g : float) (h : heap) (c : addr) : heap :=
  match get_tensor h c with
  | Some t => set_tensor c (with_grad t (Some (accumulate (grad t) g))) h
  | None => h
  end.

Definition is_leaf (h : heap) (c : addr) : Prop :=
  exists t, get_tensor h c = Some t /\ creation_op t = None.

(** ** Forward values *)

(** The value of every node that has a producer is the sum of the values
    of its two operands, which exist. *)
Definition forward_consistent (h : heap) : Prop :=
  forall a t,
    get_tensor h a = Some t -> creation_op t <> None ->
    exists c1 c2 t1 t2,
      creators t = Some [c1; c2] /\
      get_tensor h c1 = Some t1 /\ get_tensor h c2 = Some t2 /\
      data t = (data t1 + data t2)%float.

Definition is_Backward (c : api_call) : bool :=
  match c with Backward _ _ _ => true | _ => false end.

(** ** A tower of doublings *)

(** x = Tensor(a); then x = x + x, [n] times. *)
Fixpoint doubling (a : float) (n : nat) : M addr :=
  match n with
  | 0 => Tensor_init (VFloat a) None None
  | S n' => x <- doubling a n' ;; binary_op OpAdd x x
  end.

(** * Lemmas *)

(** ** Shapes: everything in a heap except the gradients *)

Lemma same_shape_refl h : same_shape h h.
Proof. by split. Qed.

Lemma same_shape_trans h1 h2 h3 :
  same_shape h1 h2 -> same_shape h2 h3 -> same_shape h1 h3.
Proof. intros [F1 T1] [F2 T2]. split; congruence. Qed.

Lemma same_shape_lookup h h' a :
  same_shape h h' -> strip <$> get_tensor h' a = strip <$> get_tensor h a.
Proof.
  intros [_ T]. unfold get_tensor.
  by rewrite <- !list_lookup_fmap, T.
Qed.

Lemma same_shape_length h h' :
  same_shape h h' -> length (tensor_objs h') = length (tensor_objs h).
Proof.
  intros [_ T]. apply (f_equal length) in T. by rewrite !length_fmap in T.
Qed.

Lemma with_grad_id t : with_grad t (grad t) = t.
Proof. by destruct t. Qed.

Lemma set_grad_same_shape h a t g :
  get_tensor h a = Some t -> same_shape h (set_tensor a (with_grad t g) h).
Proof.
  intros Ht. split; [done|]. simpl.
  rewrite list_fmap_insert. apply list_insert_id.
  unfold get_tensor in Ht. by rewrite list_lookup_fmap, Ht.
Qed.

(** An invariant of the loop body is an invariant of the loop, whether
    the loop completes or stops at a raise. *)
Lemma for_enumerate_final {A} (R : heap -> heap -> Prop) (body : nat -> A -> M unit) :
  (forall h, R h h) ->
  (forall h1 h2 h3, R h1 h2 -> R h2 h3 -> R h1 h3) ->
  (forall i x h, R h (final_heap (body i x h))) ->
  forall l i h, R h (final_heap (for_enumerate body l i h)).
Proof.
  intros Hrefl Htrans Hbody l.
  induction l as [|x l IH]; intros i h; simpl; [apply Hrefl|].
  specialize (Hbody i x h).
  destruct (body i x h) as [[] h'|e h']; simpl in *; [|done].
  eapply Htrans; [exact Hbody|apply IH].
Qed.

(** [backward] writes gradient fields and nothing else, on every path
    through it, including the ones that raise. *)
Lemma backward_same_shape fuel :
  forall n g h, same_shape h (final_heap (Tensor_backward fuel n g h)).
Proof.
  induction fuel as [|fuel IH]; intros n g h; simpl; [apply same_shape_refl|].
  destruct g as [| | |gr|]; try apply same_shape_refl.
  destruct (get_tensor h n) as [t|] eqn:Ht; [|apply same_shape_refl].
  pose proof (set_grad_same_shape h n t (Some (accumulate (grad t) gr)) Ht) as H1.
  destruct (creation_op t) as [op|]; [|done].
  destruct (get_function _ op) as [f|]; [|done].
  destruct (backward_of (fn_class f) gr) as [e|grads]; [done|].
  destruct (creators t) as [cs|]; [|done].
  eapply same_shape_trans; [exact H1|].
  apply (for_enumerate_final same_shape);
    [apply same_shape_refl|apply same_shape_trans|].
  intros i c h'. unfold propagate.
  destruct (grads !! i); [apply IH|apply same_shape_refl].
Qed.

(** ** What a pass delivers along the paths *)

Lemma receive_0 g t : receive 0 g t = t.
Proof. apply with_grad_id. Qed.

Lemma receive_add j k g t : receive k g (receive j g t) = receive (j + k) g t.
Proof.
  unfold receive, deliver. simpl. f_equal.
  rewrite Nat.add_comm. symmetry. apply Nat.iter_add.
Qed.

Lemma receive_0_fmap g (o : option Tensor) : receive 0 g <$> o = o.
Proof. destruct o; simpl; [by rewrite receive_0|done]. Qed.

Lemma strip_eq_fields t t' :
  strip t = strip t' ->
  data t = data t' /\ creators t = creators t' /\ creation_op t = creation_op t'.
Proof. destruct t, t'. unfold strip, with_grad. simpl. intros [= -> -> ->]. done. Qed.

Lemma paths_same_shape fuel h h' :
  same_shape h h' -> forall n a, paths fuel h' n a = paths fuel h n a.
Proof.
  intros Hs. induction fuel as [|fuel IH]; intros n a; simpl; [done|].
  f_equal.
  pose proof (same_shape_lookup h h' n Hs) as Hn.
  destruct (get_tensor h' n) as [t'|], (get_tensor h n) as [t|];
    simpl in Hn; try done.
  assert (strip t' = strip t) as Hst by congruence.
  apply strip_eq_fields in Hst as (_ & -> & ->).
  destruct (creation_op t); [|done]. destruct (creators t) as [cs|]; [|done].
  induction cs as [|c cs IHcs]; simpl; [done|]. by rewrite IH, IHcs.
Qed.

Section Propagation.
Variable fuel : nat.
Variable g : float.

(** What the pass of depth [fuel] is assumed to do, for the loop. *)
Hypothesis backward_delivers :
  forall n h h',
    Tensor_backward fuel n (VFloat g) h = Ok tt h' ->
    forall a, get_tensor h' a = receive (paths fuel h n a) g <$> get_tensor h a.

Lemma loop_delivers grads :
  (forall x, x ∈ grads -> x = g) ->
  forall cs i h h',
    for_enumerate (propagate (Tensor_backward fuel) grads) cs i h = Ok tt h' ->
    forall a,
      get_tensor h' a
      = receive (sum_list_with (fun c => paths fuel h c a) cs) g <$> get_tensor h a.
Proof.
  intros Hg cs. induction cs as [|c cs IH]; intros i h h' Hrun a; simpl in *.
  - injection Hrun as <-. by rewrite receive_0_fmap.
  - unfold propagate at 1 in Hrun.
    destruct (grads !! i) as [gi|] eqn:Hi; [|done].
    assert (gi = g) as -> by (apply Hg; eapply list_elem_of_lookup_2; eauto).
    destruct (Tensor_backward fuel c (VFloat g) h) as [[] hm|] eqn:Hc; [|done].
    pose proof (backward_same_shape fuel c (VFloat g) h) as Hs.
    rewrite Hc in Hs. simpl in Hs.
    rewrite (IH _ _ _ Hrun a), (backward_delivers _ _ _ Hc a).
    rewrite <- option_fmap_compose.
    assert (sum_list_with (fun c0 => paths fuel hm c0 a) cs
            = sum_list_with (fun c0 => paths fuel h c0 a) cs) as ->.
    { clear -Hs. induction cs as [|c' cs IHcs]; simpl; [done|].
      by rewrite (paths_same_shape fuel h hm Hs), IHcs. }
    destruct (get_tensor h a) as [t|]; simpl; [|done].
    by rewrite receive_add.
Qed.
End Propagation.

Lemma get_set_tensor_eq h a t t' :
  get_tensor h a = Some t -> get_tensor (set_tensor a t' h) a = Some t'.
Proof.
  unfold get_tensor. simpl. intros Ht.
  apply list_lookup_insert_eq. by eapply lookup_lt_Some.
Qed.

Lemma get_set_tensor_ne h a b t' :
  a <> b -> get_tensor (set_tensor a t' h) b = get_tensor h b.
Proof. unfold get_tensor. simpl. intros Hne. by apply list_lookup_insert_ne. Qed.

(** A pass that returns has added [g] to every node once per path from
    the node it was called on, and has changed nothing else. *)
Lemma backward_delivers fuel g :
  forall n h h',
    Tensor_backward fuel n (VFloat g) h = Ok tt h' ->
    forall a, get_tensor h' a = receive (paths fuel h n a) g <$> get_tensor h a.
Proof.
  induction fuel as [|fuel IH]; intros n h h' Hrun a; [done|].
  simpl in Hrun |- *.
  destruct (get_tensor h n) as [t|] eqn:Ht; [|done].
  set (t1 := with_grad t (Some (accumulate (grad t) g))) in *.
  assert (get_tensor (set_tensor n t1 h) a
          = receive (if decide (n = a) then 1 else 0) g <$> get_tensor h a) as Hacc.
  { destruct (decide (n = a)) as [<-|Hne].
    - by rewrite (get_set_tensor_eq _ _ _ _ Ht), Ht.
    - by rewrite get_set_tensor_ne, receive_0_fmap. }
  destruct (creation_op t) as [op|].
  - destruct (get_function _ op) as [f|]; [|done].
    destruct (fn_class f); simpl in Hrun; [done|].
    destruct (creators t) as [cs|]; [|done].
    assert (forall x, x ∈ [g; g] -> x = g) as Hgg.
    { intros x Hx. repeat (apply elem_of_cons in Hx as [->|Hx]; [done|]).
      by apply elem_of_nil in Hx. }
    rewrite (loop_delivers fuel g IH [g; g] Hgg _ _ _ _ Hrun).
    rewrite Hacc, <- option_fmap_compose.
    assert (sum_list_with (fun c => paths fuel (set_tensor n t1 h) c a) cs
            = sum_list_with (fun c => paths fuel h c a) cs) as ->.
    { pose proof (set_grad_same_shape h n t (Some (accumulate (grad t) g)) Ht) as Hs.
      fold t1 in Hs. clear -Hs.
      induction cs as [|c' cs IHcs]; simpl; [done|].
      by rewrite (paths_same_shape fuel _ _ Hs), IHcs. }
    destruct (get_tensor h a) as [ta|]; simpl; [|done].
    by rewrite receive_add.
  - injection Hrun as <-. by rewrite Nat.add_0_r.
Qed.

Lemma accumulated_refl g h : accumulated g h h.
Proof. intros a. exists 0. by rewrite receive_0_fmap. Qed.

Lemma accumulated_trans g h1 h2 h3 :
  accumulated g h1 h2 -> accumulated g h2 h3 -> accumulated g h1 h3.
Proof.
  intros H12 H23 a. destruct (H12 a) as [j Hj], (H23 a) as [k Hk].
  exists (j + k). rewrite Hk, Hj, <- option_fmap_compose.
  destruct (get_tensor h1 a); simpl; [|done]. by rewrite receive_add.
Qed.

Lemma accumulated_set g h n t :
  get_tensor h n = Some t ->
  accumulated g h (set_tensor n (with_grad t (Some (accumulate (grad t) g))) h).
Proof.
  intros Ht a. destruct (decide (n = a)) as [<-|Hne].
  - exists 1. by rewrite (get_set_tensor_eq _ _ _ _ Ht), Ht.
  - exists 0. by rewrite get_set_tensor_ne, receive_0_fmap.
Qed.

(** Whatever the heap, and whether the pass returns or raises, a gradient
    is never overwritten: what a node holds afterwards is what it held
    with the incoming gradient added some number of times. *)
Lemma backward_accumulates fuel g :
  forall n h, accumulated g h (final_heap (Tensor_backward fuel n (VFloat g) h)).
Proof.
  induction fuel as [|fuel IH]; intros n h; simpl; [apply accumulated_refl|].
  destruct (get_tensor h n) as [t|] eqn:Ht; [|apply accumulated_refl].
  pose proof (accumulated_set g h n t Ht) as H1.
  destruct (creation_op t) as [op|]; [|done].
  destruct (get_function _ op) as [f|]; [|done].
  destruct (fn_class f); simpl; [done|].
  destruct (creators t) as [cs|]; [|done].
  eapply accumulated_trans; [exact H1|].
  apply (for_enumerate_final (accumulated g));
    [apply accumulated_refl|apply accumulated_trans|].
  intros i c h'. unfold propagate.
  destruct i as [|[|i]]; simpl; try apply IH. apply accumulated_refl.
Qed.

(** ** Well-formed heaps *)

Lemma nodes_ok_spec h l : forall k,
  nodes_ok h k l = true <->
  (forall i t, l !! i = Some t -> node_ok h (k + i) t = true).
Proof.
  induction l as [|t l IH]; intros k; simpl.
  - split; [intros _ i t' Hi; done|done].
  - rewrite andb_true_iff, IH. split.
    + intros [H0 Hl] [|i] t' Hi; simpl in Hi.
      * injection Hi as <-. by rewrite Nat.add_0_r.
      * rewrite Nat.add_succ_r. by apply Hl.
    + intros Hall. split.
      * specialize (Hall 0 t eq_refl). by rewrite Nat.add_0_r in Hall.
      * intros i t' Hi. specialize (Hall (S i) t' Hi).
        by rewrite Nat.add_succ_r in Hall.
Qed.

Lemma well_formed_spec h :
  well_formed h = true <->
  (forall a t, get_tensor h a = Some t -> node_ok h a t = true).
Proof. unfold well_formed. by rewrite nodes_ok_spec. Qed.

Lemma fn_ext_refl h : fn_ext h h.
Proof. intros op f Hf. eauto. Qed.

Lemma fn_ext_same h h' : function_objs h' = function_objs h -> fn_ext h h'.
Proof. intros Hf op f Hop. exists f. unfold get_function in *. by rewrite Hf. Qed.

Lemma node_ok_ext h h' a t :
  fn_ext h h' -> node_ok h a t = true -> node_ok h' a t = true.
Proof.
  intros Hext. unfold node_ok.
  destruct (creation_op t) as [op|]; [|done].
  destruct (creators t) as [[|c1 [|c2 [|]]]|]; try done.
  destruct (get_function h op) as [f|] eqn:Hf; [|done].
  destruct (Hext _ _ Hf) as (f' & -> & ->). done.
Qed.

Lemma node_ok_strip h a t t' :
  strip t' = strip t -> node_ok h a t' = node_ok h a t.
Proof.
  intros Hs. apply strip_eq_fields in Hs as (_ & Hc & Ho).
  unfold node_ok. by rewrite Hc, Ho.
Qed.

Lemma same_shape_fn_ext h h' : same_shape h h' -> fn_ext h h'.
Proof.
  intros [Hf _] op f Hop. exists f. unfold get_function in *. by rewrite Hf.
Qed.

Lemma well_formed_same_shape h h' :
  same_shape h h' -> well_formed h = true -> well_formed h' = true.
Proof.
  rewrite !well_formed_spec. intros Hs Hwf a t' Ht'.
  pose proof (same_shape_lookup h h' a Hs) as Hl. rewrite Ht' in Hl.
  destruct (get_tensor h a) as [t|] eqn:Ht; [|done]. simpl in Hl.
  assert (strip t' = strip t) as Hst by congruence.
  rewrite (node_ok_strip _ _ _ _ Hst).
  eapply node_ok_ext; [by apply same_shape_fn_ext|by apply Hwf].
Qed.

Lemma well_formed_snoc h h' t :
  well_formed h = true ->
  tensor_objs h' = tensor_objs h ++ [t] ->
  fn_ext h h' ->
  node_ok h' (length (tensor_objs h)) t = true ->
  well_formed h' = true.
Proof.
  rewrite !well_formed_spec. intros Hwf Hts Hext Hnew a t' Ht'.
  unfold get_tensor in Ht'. rewrite Hts in Ht'.
  apply lookup_snoc_Some in Ht' as [[_ Hold]|[-> <-]]; [|done].
  eapply node_ok_ext; [done|by apply Hwf].
Qed.

Lemma well_formed_fn_ext h h' :
  well_formed h = true ->
  tensor_objs h' = tensor_objs h ->
  fn_ext h h' ->
  well_formed h' = true.
Proof.
  rewrite !well_formed_spec. intros Hwf Hts Hext a t' Ht'.
  unfold get_tensor in Ht'. rewrite Hts in Ht'.
  eapply node_ok_ext; [done|by apply Hwf].
Qed.

(** ** Termination on well-formed heaps *)

(** On a well-formed heap the creators of a node are older than the node,
    so a recursion budget above the node's address is never exhausted. *)
Lemma backward_returns fuel :
  forall n g h,
    well_formed h = true ->
    n < length (tensor_objs h) ->
    n < fuel ->
    exists h', Tensor_backward fuel n (VFloat g) h = Ok tt h'.
Proof.
  induction fuel as [|fuel IH]; intros n g h Hwf Hn Hfuel; [lia|].
  simpl.
  destruct (lookup_lt_is_Some_2 _ _ Hn) as [t Ht].
  fold (get_tensor h n) in Ht. rewrite Ht.
  pose proof (proj1 (well_formed_spec h) Hwf n t Ht) as Hok.
  pose proof (set_grad_same_shape h n t (Some (accumulate (grad t) g)) Ht) as Hs1.
  set (h1 := set_tensor n _ h) in *.
  unfold node_ok in Hok.
  destruct (creation_op t) as [op|]; [|eauto].
  destruct (creators t) as [[|c1 [|c2 [|]]]|]; try done.
  change (get_function h1 op) with (get_function h op).
  destruct (get_function h op) as [f|]; [|done].
  apply andb_true_iff in Hok as [Hok Hc2]. apply andb_true_iff in Hok as [Hadd Hc1].
  apply Nat.ltb_lt in Hc1, Hc2.
  destruct (fn_class f); [done|]. simpl. unfold propagate at 1. simpl.
  destruct (IH c1 g h1) as [hm Hm].
  { by eapply well_formed_same_shape. }
  { rewrite (same_shape_length _ _ Hs1). lia. }
  { lia. }
  rewrite Hm.
  pose proof (backward_same_shape fuel c1 (VFloat g) h1) as Hsm.
  rewrite Hm in Hsm. simpl in Hsm.
  pose proof (same_shape_trans _ _ _ Hs1 Hsm) as Hs2.
  unfold propagate at 1. simpl.
  destruct (IH c2 g hm) as [h' H'].
  { by eapply well_formed_same_shape. }
  { rewrite (same_shape_length _ _ Hs2). lia. }
  { lia. }
  rewrite H'. eauto.
Qed.

(** Paths lead to older nodes only. *)
Lemma paths_upward h :
  well_formed h = true ->
  forall fuel n a, n < a -> paths fuel h n a = 0.
Proof.
  intros Hwf fuel. induction fuel as [|fuel IH]; intros n a Hlt; simpl; [done|].
  destruct (decide (n = a)) as [->|_]; [lia|]. simpl.
  destruct (get_tensor h n) as [t|] eqn:Ht; [|done].
  pose proof (proj1 (well_formed_spec h) Hwf n t Ht) as Hok.
  unfold node_ok in Hok.
  destruct (creation_op t) as [op|]; [|done].
  destruct (creators t) as [[|c1 [|c2 [|]]]|]; try done.
  destruct (get_function h op) as [f|]; [|done].
  apply andb_true_iff in Hok as [Hok Hc2]. apply andb_true_iff in Hok as [_ Hc1].
  apply Nat.ltb_lt in Hc1, Hc2. simpl.
  rewrite !IH by lia. done.
Qed.

Lemma paths_self h fuel n :
  well_formed h = true -> paths (S fuel) h n n = 1.
Proof.
  intros Hwf. simpl. rewrite decide_True by done.
  destruct (get_tensor h n) as [t|] eqn:Ht; [|done].
  pose proof (proj1 (well_formed_spec h) Hwf n t Ht) as Hok.
  unfold node_ok in Hok.
  destruct (creation_op t) as [op|]; [|done].
  destruct (creators t) as [[|c1 [|c2 [|]]]|]; try done.
  destruct (get_function h op) as [f|]; [|done].
  apply andb_true_iff in Hok as [Hok Hc2]. apply andb_true_iff in Hok as [_ Hc1].
  apply Nat.ltb_lt in Hc1, Hc2. simpl.
  rewrite !(paths_upward h Hwf) by lia. done.
Qed.

(** Once the budget exceeds the address of the start node, [paths] no
    longer depends on it: it counts all the paths. *)
Lemma paths_fuel h :
  well_formed h = true ->
  forall fuel fuel' n a,
    n < fuel -> n < fuel' -> paths fuel h n a = paths fuel' h n a.
Proof.
  intros Hwf fuel.
  induction fuel as [|fuel IH]; intros fuel' n a Hlt Hlt'; [lia|].
  destruct fuel' as [|fuel']; [lia|]. simpl. f_equal.
  destruct (get_tensor h n) as [t|] eqn:Ht; [|done].
  pose proof (proj1 (well_formed_spec h) Hwf n t Ht) as Hok.
  unfold node_ok in Hok.
  destruct (creation_op t) as [op|]; [|done].
  destruct (creators t) as [[|c1 [|c2 [|]]]|]; try done.
  destruct (get_function h op) as [f|]; [|done].
  apply andb_true_iff in Hok as [Hok Hc2]. apply andb_true_iff in Hok as [_ Hc1].
  apply Nat.ltb_lt in Hc1, Hc2. simpl.
  rewrite (IH fuel' c1 a), (IH fuel' c2 a) by lia. done.
Qed.

(** ** The API keeps heaps well-formed *)

Lemma read_data_heap ts : forall h, final_heap (read_data ts h) = h.
Proof.
  induction ts as [|t ts IH]; intros h; simpl; [done|].
  destruct (get_tensor h t); [|done].
  specialize (IH h). by destruct (read_data ts h).
Qed.

Lemma read_data_Ok ts : forall h ds h',
  read_data ts h = Ok ds h' ->
  h' = h /\ Forall2 (fun a d => exists t, get_tensor h a = Some t /\ data t = d) ts ds.
Proof.
  induction ts as [|t ts IH]; intros h ds h' Hrun; simpl in Hrun.
  - injection Hrun as <- <-. by split.
  - destruct (get_tensor h t) as [o|] eqn:Ho; [|done].
    destruct (read_data ts h) as [ds' h''|] eqn:Hr; [|done].
    injection Hrun as <- <-.
    destruct (IH _ _ _ Hr) as [-> Hall]. split; [done|].
    constructor; [eauto|done].
Qed.

Lemma set_function_fn_ext h r f f' :
  get_function h r = Some f -> fn_class f' = fn_class f ->
  fn_ext h (set_function r f' h).
Proof.
  intros Hr Hcls op fo Hop. unfold get_function in *. simpl.
  destruct (decide (r = op)) as [->|Hne].
  - exists f'. split; [|congruence].
    apply list_lookup_insert_eq. by eapply lookup_lt_Some.
  - exists fo. split; [|done]. by rewrite list_lookup_insert_ne.
Qed.

Lemma Function_new_fn_ext c h : fn_ext h (final_heap (Function_new c h)).
Proof.
  intros op f Hop. exists f. split; [|done].
  unfold get_function in *. simpl. by apply lookup_app_l_Some.
Qed.

(** What a successful [Function.__call__] has done. *)
Lemma Function_call_Ok self ts h a h' :
  Function_call self ts h = Ok a h' ->
  exists f x y cx cy tx ty,
    get_function h self = Some f /\ fn_class f = Add_cls /\
    ts = [x; y] /\
    get_tensor h x = Some tx /\ data tx = cx /\
    get_tensor h y = Some ty /\ data ty = cy /\
    a = length (tensor_objs h) /\
    h' = mkHeap
           (tensor_objs h ++ [mkTensor (cx + cy)%float (Some ts) (Some self) None])
           (<[self := mkFunction Add_cls (Some ts) (Some (cx + cy)%float)]>
              (function_objs h)).
Proof.
  unfold Function_call. intros Hrun.
  destruct (get_function h self) as [f|] eqn:Hf; [|done].
  destruct (read_data ts _) as [ds h2|] eqn:Hr; [|done].
  apply read_data_Ok in Hr as [-> Hall].
  destruct (fn_class f) eqn:Hcls; simpl in Hrun; [done|].
  unfold Add_forward in Hrun.
  destruct ds as [|cx [|cy [|]]]; try done.
  inversion Hall as [|x ? ts1 ? (tx & Hx & Hdx) Hall1]; subst.
  inversion Hall1 as [|y ? ts2 ? (ty & Hy & Hdy) Hall2]; subst.
  inversion Hall2; subst.
  injection Hrun as <- <-. simpl.
  exists f, x, y, (data tx), (data ty), tx, ty.
  rewrite list_insert_insert_eq. done.
Qed.

(** A [Function.__call__] that raises has created no node. *)
Lemma Function_call_Raise self ts h e h' :
  Function_call self ts h = Raise e h' ->
  tensor_objs h' = tensor_objs h /\ fn_ext h h'.
Proof.
  unfold Function_call. intros Hrun.
  destruct (get_function h self) as [f|] eqn:Hf.
  2:{ injection Hrun as _ <-. split; [done|apply fn_ext_refl]. }
  pose proof (read_data_heap ts (set_function self
    (mkFunction (fn_class f) (Some ts) (output f)) h)) as Hh.
  pose proof (set_function_fn_ext h self f
    (mkFunction (fn_class f) (Some ts) (output f)) Hf eq_refl) as Hext.
  destruct (read_data ts _) as [ds h2|e2 h2]; simpl in Hh; subst h2.
  - destruct (forward_of (fn_class f) ds); [|done].
    injection Hrun as _ <-. done.
  - injection Hrun as _ <-. done.
Qed.

Lemma Function_call_well_formed self ts h :
  well_formed h = true -> well_formed (final_heap (Function_call self ts h)) = true.
Proof.
  intros Hwf. destruct (Function_call self ts h) as [a h'|e h'] eqn:Hrun; simpl.
  - apply Function_call_Ok in Hrun
      as (f & x & y & cx & cy & tx & ty & Hf & Hcls & -> & Hx & _ & Hy & _ & _ & ->).
    assert (fn_ext h (set_function self (mkFunction Add_cls (Some [x; y])
                        (Some (cx + cy)%float)) h)) as Hext.
    { eapply set_function_fn_ext; [done|]. by rewrite Hcls. }
    eapply well_formed_snoc; [exact Hwf|done|exact Hext|].
    unfold node_ok, get_function. simpl.
    rewrite list_lookup_insert_eq by (by eapply lookup_lt_Some). simpl.
    apply lookup_lt_Some in Hx, Hy.
    apply andb_true_iff; split; by apply Nat.ltb_lt.
  - apply Function_call_Raise in Hrun as [Hts Hext].
    by eapply well_formed_fn_ext.
Qed.

Lemma run_call_well_formed h c :
  well_formed h = true -> well_formed (run_call h c) = true.
Proof.
  intros Hwf. destruct c as [v|c|f ts|x y|fuel n g]; simpl.
  - destruct v; simpl; try done.
    eapply well_formed_snoc; [exact Hwf|done|by apply fn_ext_same|done].
  - eapply well_formed_fn_ext; [exact Hwf|done|apply Function_new_fn_ext].
  - by apply Function_call_well_formed.
  - unfold Tensor_add, bind. simpl. apply Function_call_well_formed.
    eapply well_formed_fn_ext; [exact Hwf|done|apply (Function_new_fn_ext Add_cls)].
  - eapply well_formed_same_shape; [apply backward_same_shape|done].
Qed.

(** Every heap the API can build is well-formed. *)
Lemma run_calls_well_formed cs : well_formed (run_calls cs) = true.
Proof.
  unfold run_calls. generalize empty_heap (eq_refl : well_formed empty_heap = true).
  induction cs as [|c cs IH]; intros h Hwf; simpl; [done|].
  apply IH. by apply run_call_well_formed.
Qed.

(** ** Reading and writing the newest objects of a heap *)

Section Newest.
Context {A : Type}.
Implicit Types (l new : list A) (x : A).

Lemma lookup_new0 l new : (l ++ new) !! length l = new !! 0.
Proof. rewrite lookup_app_r by lia. by rewrite Nat.sub_diag. Qed.

Lemma lookup_new1 l new : (l ++ new) !! S (length l) = new !! 1.
Proof. rewrite lookup_app_r by lia. f_equal. lia. Qed.

Lemma lookup_new2 l new : (l ++ new) !! S (S (length l)) = new !! 2.
Proof. rewrite lookup_app_r by lia. f_equal. lia. Qed.

Lemma lookup_new3 l new : (l ++ new) !! S (S (S (length l))) = new !! 3.
Proof. rewrite lookup_app_r by lia. f_equal. lia. Qed.

Lemma insert_new0 l new x : <[length l := x]> (l ++ new) = l ++ <[0 := x]> new.
Proof. rewrite <- (insert_app_r l new 0 x). f_equal. lia. Qed.

Lemma insert_new1 l new x : <[S (length l) := x]> (l ++ new) = l ++ <[1 := x]> new.
Proof. rewrite <- (insert_app_r l new 1 x). f_equal. lia. Qed.

Lemma insert_new2 l new x : <[S (S (length l)) := x]> (l ++ new) = l ++ <[2 := x]> new.
Proof. rewrite <- (insert_app_r l new 2 x). f_equal. lia. Qed.

Lemma insert_new3 l new x :
  <[S (S (S (length l))) := x]> (l ++ new) = l ++ <[3 := x]> new.
Proof. rewrite <- (insert_app_r l new 3 x). f_equal. lia. Qed.

Lemma length_snoc1 l x : length (l ++ [x]) = S (length l).
Proof. rewrite length_app. simpl. lia. Qed.

Lemma length_snoc2 l x y : length (l ++ [x; y]) = S (S (length l)).
Proof. rewrite length_app. simpl. lia. Qed.

Lemma length_snoc3 l x y z : length (l ++ [x; y; z]) = S (S (S (length l))).
Proof. rewrite length_app. simpl. lia. Qed.
End Newest.

Create Rewrite HintDb newest.
#[local] Hint Rewrite @lookup_new0 @lookup_new1 @lookup_new2 @lookup_new3
  @insert_new0 @insert_new1 @insert_new2 @insert_new3
  @length_snoc1 @length_snoc2 @length_snoc3 : newest.

(** Runs a straight-line program on a heap whose old part is symbolic. *)
Ltac py_step :=
  first
    [ progress (cbn -[PrimFloat.add Tensor_backward])
    | progress (rewrite <- ?app_assoc)
    | progress (autorewrite with newest)
    | progress (unfold binary_op, Tensor_method, Tensor_add, Function_call,
                Tensor_init, Function_new, bind, ret, raise, get_function,
                get_tensor, set_function, set_tensor, propagate, with_grad) ].
Ltac run_py := repeat py_step.

Lemma build_sum_run a b ts fs :
  build_sum a b (mkHeap ts fs)
  = Ok (length ts, S (length ts), S (S (length ts)))
       (mkHeap
          (ts ++ [mkTensor a None None None;
                  mkTensor b None None None;
                  mkTensor (a + b)%float (Some [length ts; S (length ts)])
                    (Some (length fs)) None])
          (fs ++ [mkFunction Add_cls (Some [length ts; S (length ts)])
                    (Some (a + b)%float)])).
Proof. unfold build_sum. run_py. reflexivity. Qed.

Ltac run_backward := repeat (cbn [Tensor_backward]; run_py).

(** [z.backward(g)] on the three nodes of [build_sum], whatever gradients
    they hold. *)
Lemma backward_sum_run a b g fuel ts fs gx gy gz F :
  Tensor_backward (S (S fuel)) (S (S (length ts))) (VFloat g)
    (mkHeap
       (ts ++ [mkTensor a None None gx;
               mkTensor b None None gy;
               mkTensor (a + b)%float (Some [length ts; S (length ts)])
                 (Some (length fs)) gz])
       (fs ++ [mkFunction Add_cls F (Some (a + b)%float)]))
  = Ok tt
      (mkHeap
         (ts ++ [mkTensor a None None (Some (accumulate gx g));
                 mkTensor b None None (Some (accumulate gy g));
                 mkTensor (a + b)%float (Some [length ts; S (length ts)])
                   (Some (length fs)) (Some (accumulate gz g))])
         (fs ++ [mkFunction Add_cls F (Some (a + b)%float)])).
Proof. run_backward. reflexivity. Qed.

Lemma build_double_run a ts fs :
  build_double a (mkHeap ts fs)
  = Ok (length ts, S (length ts))
       (mkHeap
          (ts ++ [mkTensor a None None None;
                  mkTensor (a + a)%float (Some [length ts; length ts])
                    (Some (length fs)) None])
          (fs ++ [mkFunction Add_cls (Some [length ts; length ts])
                    (Some (a + a)%float)])).
Proof. unfold build_double. run_py. reflexivity. Qed.

Lemma backward_double_run a g fuel ts fs gx gp F :
  Tensor_backward (S (S fuel)) (S (length ts)) (VFloat g)
    (mkHeap
       (ts ++ [mkTensor a None None gx;
               mkTensor (a + a)%float (Some [length ts; length ts])
                 (Some (length fs)) gp])
       (fs ++ [mkFunction Add_cls F (Some (a + a)%float)]))
  = Ok tt
      (mkHeap
         (ts ++ [mkTensor a None None
                   (Some (accumulate (Some (accumulate gx g)) g));
                 mkTensor (a + a)%float (Some [length ts; length ts])
                   (Some (length fs)) (Some (accumulate gp g))])
         (fs ++ [mkFunction Add_cls F (Some (a + a)%float)])).
Proof. run_backward. reflexivity. Qed.

Lemma build_diamond_run a b c :
  build_diamond a b c empty_heap
  = Ok (0, 5)
       (mkHeap
          [mkTensor a None None None;
           mkTensor b None None None;
           mkTensor c None None None;
           mkTensor (a + b)%float (Some [0; 1]) (Some 0) None;
           mkTensor (a + c)%float (Some [0; 2]) (Some 1) None;
           mkTensor ((a + b) + (a + c))%float (Some [3; 4]) (Some 2) None]
          [mkFunction Add_cls (Some [0; 1]) (Some (a + b)%float);
           mkFunction Add_cls (Some [0; 2]) (Some (a + c)%float);
           mkFunction Add_cls (Some [3; 4]) (Some ((a + b) + (a + c))%float)]).
Proof. reflexivity. Qed.

(** ** Binary64 facts *)

Lemma float_neq (x y : float) : (x =? x)%float = true -> (x =? y)%float = false -> x <> y.
Proof. intros Hx Hxy ->. congruence. Qed.

Section Doubling.
Local Open Scope Z_scope.

(** The mantissa of a valid float gains one bit when doubled: its
    exponent stays (subnormal) or goes up by one. *)
Lemma fexp_succ_cases (d : positive) (e : Z) :
  canonical_mantissa prec emax d e = true ->
  fexp prec emax (Zpos (Pos.succ (digits2_pos d)) + e) - e = 0 \/
  fexp prec emax (Zpos (Pos.succ (digits2_pos d)) + e) - e = 1.
Proof.
  unfold canonical_mantissa, fexp, emin, prec, emax.
  intros H. apply Z.eqb_eq in H. rewrite Pos2Z.inj_succ. lia.
Qed.

(** The mantissa of 2.0 is 2^52: the product appends 52 zero bits. *)
Lemma mul_pow52 (m : positive) :
  (4503599627370496 * m
   = m~0~0~0~0~0~0~0~0~0~0~0~0~0~0~0~0~0~0~0~0~0~0~0~0~0~0~0~0~0~
     0~0~0~0~0~0~0~0~0~0~0~0~0~0~0~0~0~0~0~0~0~0~0)%positive.
Proof. reflexivity. Qed.

(** Rounding 2^52 * m at exponent e - 51 (the product by 2.0) and 2 * m
    at exponent e (the sum with itself) shift to the same record. *)
Lemma shr_fexp_double (m : positive) (e : Z) :
  canonical_mantissa prec emax m e = true ->
  shr_fexp prec emax (Zpos (4503599627370496 * m)) (-51 + e) loc_Exact
  = shr_fexp prec emax (Zpos m~0) e loc_Exact.
Proof.
  intros Hc. pose proof (fexp_succ_cases m e Hc) as HF.
  unfold shr_fexp. rewrite mul_pow52.
  match goal with |- context [Zdigits2 (Z.pos ?b)] => set (big := b) end.
  assert (Zdigits2 (Z.pos big) + (-51 + e)
          = Z.pos (Pos.succ (digits2_pos m)) + e) as ->.
  { subst big. cbn [Zdigits2 digits2_pos]. rewrite !Pos2Z.inj_succ. lia. }
  change (Zdigits2 (Z.pos m~0)) with (Z.pos (Pos.succ (digits2_pos m))).
  set (F := fexp prec emax (Z.pos (Pos.succ (digits2_pos m)) + e)) in *.
  destruct HF as [HF|HF].
  - replace (F - (-51 + e)) with 51 by lia. rewrite HF.
    subst big. unfold shr. cbn [iter_pos shr_1 shr_record_of_loc orb].
    f_equal. lia.
  - replace (F - (-51 + e)) with 52 by lia. rewrite HF.
    subst big. unfold shr. cbn [iter_pos shr_1 shr_record_of_loc orb].
    f_equal. lia.
Qed.

Lemma SF64_double (x : spec_float) :
  valid_binary x = true ->
  SF64add x x = SF64mul (Prim2SF 2%float) x.
Proof.
  change (Prim2SF 2%float) with (S754_finite false 4503599627370496 (-51)).
  destruct x as [[]|[]| |s m e]; try reflexivity.
  intros Hv. cbn [SpecFloat.valid_binary] in Hv. unfold bounded in Hv.
  apply andb_prop in Hv as [Hc _].
  unfold SF64add, SF64mul, SFadd, SFmul.
  rewrite Z.min_id. unfold shl_align at 1 2. rewrite Z.sub_diag. cbn [fst xorb].
  assert (cond_Zopp s (Z.pos m) + cond_Zopp s (Z.pos m)
          = cond_Zopp s (Z.pos m~0)) as ->.
  { destruct s; simpl; lia. }
  assert (binary_normalize prec emax (cond_Zopp s (Z.pos m~0)) e false
          = binary_round prec emax s m~0 e) as -> by (by destruct s).
  unfold binary_round.
  pose proof (fexp_succ_cases m e Hc) as HF.
  change (digits2_pos m~0) with (Pos.succ (digits2_pos m)).
  unfold shl_align.
  assert (match fexp prec emax (Z.pos (Pos.succ (digits2_pos m)) + e) - e with
          | Z.neg d =>
              (Pos.iter xO (m~0)%positive d,
               fexp prec emax (Z.pos (Pos.succ (digits2_pos m)) + e))
          | _ => ((m~0)%positive, e)
          end = ((m~0)%positive, e)) as ->.
  { destruct HF as [-> | ->]; reflexivity. }
  unfold binary_round_aux.
  by rewrite shr_fexp_double.
Qed.
End Doubling.

(** In binary64 the sum of a float with itself is its product by 2.0,
    for every float: zeros, subnormals, overflow to infinity and NaN
    included. *)
Lemma float_double (g : float) : (g + g)%float = (2 * g)%float.
Proof.
  apply Prim2SF_inj. rewrite add_spec, mul_spec.
  apply SF64_double, Prim2SF_valid.
Qed.

(** * The claims *)

(** ** Values are write-once *)

Lemma same_shape_data h h' a :
  same_shape h h' -> data <$> get_tensor h' a = data <$> get_tensor h a.
Proof.
  intros Hs. pose proof (same_shape_lookup h h' a Hs) as Hl.
  destruct (get_tensor h' a) as [t'|], (get_tensor h a) as [t|]; simpl in *; try done.
  assert (strip t' = strip t) as Hst by congruence.
  apply strip_eq_fields in Hst as (-> & _). done.
Qed.

(** C9. [backward] never changes the value of any node: whatever node it
    is called on, with whatever gradient and recursion budget, and whether
    it returns or raises, every node of the heap has afterwards the [data],
    the [creators] and the [creation_op] it had before, and the function
    objects are untouched; only [grad] fields are written. In the scenario
    t1 = Tensor(1.0); t2 = Tensor(2.0); t3 = t1 + t2; t3.backward(1.0) the
    call returns, t1.data is still 1.0 and t2.data still 2.0 (and both
    gradients are 1.0). *)
Theorem C9_backward_frame :
  (forall fuel n g h a,
     data <$> get_tensor (final_heap (Tensor_backward fuel n g h)) a
     = data <$> get_tensor h a) /\
  (forall fuel n g h, same_shape h (final_heap (Tensor_backward fuel n g h))) /\
  (exists h',
     test_addition_backward empty_heap = Ok (0, 1, 2) h' /\
     get_tensor h' 0 = Some (mkTensor f1 None None (Some f1)) /\
     get_tensor h' 1 = Some (mkTensor f2 None None (Some f1)) /\
     data <$> get_tensor h' 2 = Some f3).
Proof.
  split; [|split].
  - intros fuel n g h a. apply same_shape_data, backward_same_shape.
  - intros fuel n g h. apply backward_same_shape.
  - eexists. split; [vm_compute; reflexivity|]. repeat split.
Qed.

(** ** Construction *)

(** C10. [Tensor(data)] with [data] a Python [int], [bool] included,
    raises [TypeError] and creates nothing, whatever [creators] and
    [creation_op] are passed; construction succeeds exactly when [data] is
    a [float]. *)
Theorem C10_int_data_rejected v cs op h (Hv : isinstance_int v = true) :
  Tensor_init v cs op h = Raise TypeError h /\
  (forall w, succeeded (Tensor_init w cs op h) = isinstance_float w).
Proof.
  split; [by destruct v|]. intros w. by destruct w.
Qed.

Lemma C10_int_data_rejected_witness :
  isinstance_int (VBool true) = true /\
  Tensor_init (VBool true) None None empty_heap = Raise TypeError empty_heap /\
  Tensor_init (VInt 1) None None empty_heap = Raise TypeError empty_heap.
Proof.
  split; [reflexivity|]. split.
  - exact (proj1 (C10_int_data_rejected (VBool true) None None empty_heap eq_refl)).
  - exact (proj1 (C10_int_data_rejected (VInt 1) None None empty_heap eq_refl)).
Defined.

(** C5, as stated, fails: NaN and the infinities are instances of [float],
    so [Tensor(float('nan'))], [Tensor(float('inf'))] and
    [Tensor(float('-inf'))] each return a node holding that value. *)
Lemma C5_non_finite_accepted :
  is_finite nan = false /\ is_finite infinity = false /\
  is_finite neg_infinity = false /\
  Tensor_init (VFloat nan) None None empty_heap
  = Ok 0 (mkHeap [mkTensor nan None None None] []) /\
  Tensor_init (VFloat infinity) None None empty_heap
  = Ok 0 (mkHeap [mkTensor infinity None None None] []) /\
  Tensor_init (VFloat neg_infinity) None None empty_heap
  = Ok 0 (mkHeap [mkTensor neg_infinity None None None] []) /\
  ~ (forall x, is_finite x = false ->
       succeeded (Tensor_init (VFloat x) None None empty_heap) = false).
Proof.
  repeat split. intros H. specialize (H nan eq_refl). discriminate H.
Qed.

(** C5, amended. Construction checks the type of [data], not its
    finiteness: every [float] is accepted, NaN and the infinities included,
    and yields a new node with that value and no gradient; a value that is
    not a [float] raises [TypeError], and then no node is created and the
    heap is unchanged. *)
Theorem C5_only_non_floats_rejected x v cs op h (Hv : isinstance_float v = false) :
  Tensor_init (VFloat x) cs op h
  = Ok (length (tensor_objs h))
       (mkHeap (tensor_objs h ++ [mkTensor x cs op None]) (function_objs h)) /\
  get_tensor (final_heap (Tensor_init (VFloat x) cs op h)) (length (tensor_objs h))
  = Some (mkTensor x cs op None) /\
  Tensor_init v cs op h = Raise TypeError h.
Proof.
  split; [done|]. split.
  - unfold get_tensor. simpl. by apply list_lookup_middle.
  - by destruct v.
Qed.

Lemma C5_only_non_floats_rejected_witness :
  isinstance_float VNone = false /\
  Tensor_init (VFloat nan) None None empty_heap
  = Ok 0 (mkHeap [mkTensor nan None None None] []) /\
  Tensor_init VNone None None empty_heap = Raise TypeError empty_heap.
Proof.
  split; [reflexivity|].
  pose proof (C5_only_non_floats_rejected nan VNone None None empty_heap eq_refl)
    as (H1 & _ & H2).
  split; [exact H1|exact H2].
Defined.

(** ** Operators *)

(** C4. The code has no multiplication: class [Tensor] defines [__add__]
    only, so [t1 * t2] on two tensors raises [TypeError] before any node
    is made, and the two multiplication tests of tensor_test.py stop there:
    no node with value 8.0 exists and no gradient is ever set. *)
Theorem C4_multiplication_unsupported :
  (forall a b h, binary_op OpMul a b h = Raise TypeError h) /\
  test_multiplication_forward empty_heap
  = Raise TypeError (mkHeap [mkTensor f2 None None None; mkTensor f4 None None None] []) /\
  test_multiplication_backward empty_heap
  = Raise TypeError (mkHeap [mkTensor f2 None None None; mkTensor f4 None None None] []).
Proof. repeat split. Qed.

(** C3. For all floats [a], [b] and [g] (finite or not), on any heap:
    after x = Tensor(a); y = Tensor(b); z = x + y the node [z] has
    data a + b, operands [x; y] and a fresh [Add] as its operation; then
    z.backward(g) returns, given a recursion budget of two calls or more,
    and leaves x.grad = g and y.grad = g (and z.grad = g). *)
Theorem C3_addition_contract a b g fuel h :
  let x := length (tensor_objs h) in
  let y := S x in
  let z := S y in
  exists h1 h2,
    build_sum a b h = Ok (x, y, z) h1 /\
    get_tensor h1 z
    = Some (mkTensor (a + b)%float (Some [x; y]) (Some (length (function_objs h))) None) /\
    (fn_class <$> get_function h1 (length (function_objs h))) = Some Add_cls /\
    Tensor_backward (S (S fuel)) z (VFloat g) h1 = Ok tt h2 /\
    get_tensor h2 x = Some (mkTensor a None None (Some g)) /\
    get_tensor h2 y = Some (mkTensor b None None (Some g)) /\
    grad <$> get_tensor h2 z = Some (Some g).
Proof.
  destruct h as [ts fs]. simpl.
  eexists _, _. split; [apply build_sum_run|].
  split; [run_py; reflexivity|].
  split; [run_py; reflexivity|].
  split; [apply backward_sum_run|].
  repeat split; run_py; reflexivity.
Qed.

(** ** Accumulation along paths *)

(** C2. The gradient a node receives is the sum over the paths that reach
    it. On every well-formed heap, and every heap built through the API is
    one, sink.backward(g) returns when the recursion budget exceeds the
    address of the sink, and every node [x] has then accumulated [g] once
    per path from the sink to [x], on top of what it held (the number of
    paths being the same for every such budget). For p = x + x
    on a fresh leaf there are two paths and x.grad = g + g, which is
    2 * g; so there are for the diamond p = x + y, q = x + w, s = p + q,
    where s.backward(g) leaves x.grad = g + g. *)
Theorem C2_shared_subgraph_fan_in :
  (forall calls, well_formed (run_calls calls) = true) /\
  (forall h sink g fuel,
     well_formed h = true -> sink < length (tensor_objs h) -> sink < fuel ->
     exists h',
       Tensor_backward fuel sink (VFloat g) h = Ok tt h' /\
       (forall x, get_tensor h' x = receive (paths fuel h sink x) g <$> get_tensor h x) /\
       (forall x fuel', sink < fuel' -> paths fuel' h sink x = paths fuel h sink x)) /\
  (forall a g fuel h,
     let x := length (tensor_objs h) in
     let p := S x in
     exists h1 h2,
       build_double a h = Ok (x, p) h1 /\
       paths (S (S fuel)) h1 p x = 2 /\
       Tensor_backward (S (S fuel)) p (VFloat g) h1 = Ok tt h2 /\
       get_tensor h2 x = Some (mkTensor a None None (Some (g + g)%float)) /\
       get_tensor h2 x = Some (mkTensor a None None (Some (2 * g)%float))) /\
  (forall a b c g fuel,
     exists h1 h2,
       build_diamond a b c empty_heap = Ok (0, 5) h1 /\
       paths (S (S (S fuel))) h1 5 0 = 2 /\
       Tensor_backward (S (S (S fuel))) 5 (VFloat g) h1 = Ok tt h2 /\
       get_tensor h2 0 = Some (mkTensor a None None (Some (g + g)%float))).
Proof.
  split; [apply run_calls_well_formed|]. split; [|split].
  - intros h sink g fuel Hwf Hs Hfuel.
    destruct (backward_returns fuel sink g h Hwf Hs Hfuel) as [h' Hrun].
    exists h'. split; [done|]. split; [by apply backward_delivers|].
    intros x fuel' Hfuel'. by apply paths_fuel.
  - intros a g fuel [ts fs]. simpl.
    eexists _, _. split; [apply build_double_run|].
    split.
    { cbn [paths]. run_py.
      rewrite decide_False by lia. rewrite !decide_True by done. done. }
    split; [apply backward_double_run|].
    rewrite <- float_double. split; run_py; reflexivity.
  - intros a b c g fuel.
    eexists _, _. split; [apply build_diamond_run|].
    split; [reflexivity|]. split; reflexivity.
Qed.

Lemma C2_shared_subgraph_fan_in_witness :
  let h := final_heap (build_double f1 empty_heap) in
  well_formed h = true /\ 1 < length (tensor_objs h) /\ 1 < recursion_limit /\
  paths recursion_limit h 1 0 = 2 /\
  exists h',
    Tensor_backward recursion_limit 1 (VFloat f1) h = Ok tt h' /\
    get_tensor h' 0 = Some (mkTensor f1 None None (Some f2)).
Proof.
  intros h.
  assert (well_formed h = true) as Hwf by reflexivity.
  assert (1 < length (tensor_objs h)) as Hlen by (simpl; lia).
  assert (1 < recursion_limit) as Hfuel by (unfold recursion_limit; lia).
  split; [exact Hwf|]. split; [exact Hlen|]. split; [exact Hfuel|].
  split; [reflexivity|].
  destruct (proj1 (proj2 C2_shared_subgraph_fan_in) h 1 f1 recursion_limit
              Hwf Hlen Hfuel) as (h' & Hrun & Hall & _).
  exists h'. split; [exact Hrun|].
  rewrite (Hall 0). reflexivity.
Defined.

(** C1, as stated, fails on a leaf reached along two paths: after
    x = Tensor(1.0); p = x + x, the calls p.backward(1.0) and
    p.backward(2.0) leave x.grad = 6.0, not 1.0 + 2.0. *)
Lemma C1_two_paths_counterexample :
  exists h1 h2 h3,
    build_double f1 empty_heap = Ok (0, 1) h1 /\
    get_tensor h1 0 = Some (mkTensor f1 None None None) /\
    Tensor_backward recursion_limit 1 (VFloat f1) h1 = Ok tt h2 /\
    Tensor_backward recursion_limit 1 (VFloat f2) h2 = Ok tt h3 /\
    get_tensor h3 0 = Some (mkTensor f1 None None (Some 6%float)) /\
    6%float <> (f1 + f2)%float.
Proof.
  eexists _, _, _. split; [reflexivity|]. split; [reflexivity|].
  split; [vm_compute; reflexivity|]. split; [vm_compute; reflexivity|].
  split; [reflexivity|]. by apply float_neq.
Qed.

(** C1, amended. Accumulation never overwrites: an absent gradient becomes
    the incoming one, a present gradient becomes old + incoming, and on
    any heap a call of [backward], returning or raising, leaves in every
    node the gradient it held with the incoming one added some number of
    times. On a well-formed heap, n.backward(g1) followed by
    n.backward(g2) both return (recursion budget above the address of
    [n]); the gradient of [n] itself is accumulated once per call; every
    node [a] has accumulated g1 once per path from [n] to [a] and then g2
    once per path; and a node whose gradient was absent and that is
    reached along exactly one path ends with gradient g1 + g2. *)
Theorem C1_accumulation h n g1 g2 fuel
  (Hwf : well_formed h = true)
  (Hn : n < length (tensor_objs h))
  (Hfuel : n < fuel) :
  (accumulate None g1 = g1 /\ forall g0, accumulate (Some g0) g1 = (g0 + g1)%float) /\
  (forall fuel' m g h0 a, exists k,
     get_tensor (final_heap (Tensor_backward fuel' m (VFloat g) h0)) a
     = receive k g <$> get_tensor h0 a) /\
  exists h1 h2,
    Tensor_backward fuel n (VFloat g1) h = Ok tt h1 /\
    Tensor_backward fuel n (VFloat g2) h1 = Ok tt h2 /\
    (forall t, get_tensor h n = Some t ->
       grad <$> get_tensor h1 n = Some (Some (accumulate (grad t) g1)) /\
       grad <$> get_tensor h2 n
       = Some (Some (accumulate (Some (accumulate (grad t) g1)) g2))) /\
    (forall a t, get_tensor h a = Some t ->
       get_tensor h2 a
       = Some (receive (paths fuel h n a) g2 (receive (paths fuel h n a) g1 t))) /\
    (forall a t, get_tensor h a = Some t ->
       grad t = None -> paths fuel h n a = 1 ->
       grad <$> get_tensor h2 a = Some (Some (g1 + g2)%float)).
Proof.
  split; [done|].
  split; [intros fuel' m g h0 a; apply backward_accumulates|].
  destruct (backward_returns fuel n g1 h Hwf Hn Hfuel) as [h1 Hrun1].
  pose proof (backward_same_shape fuel n (VFloat g1) h) as Hs1.
  rewrite Hrun1 in Hs1. simpl in Hs1.
  destruct (backward_returns fuel n g2 h1) as [h2 Hrun2];
    [by eapply well_formed_same_shape|by rewrite (same_shape_length _ _ Hs1)|done|].
  exists h1, h2. split; [done|]. split; [done|].
  assert (forall a t, get_tensor h a = Some t ->
            get_tensor h2 a
            = Some (receive (paths fuel h n a) g2 (receive (paths fuel h n a) g1 t)))
    as Hboth.
  { intros a t Ht.
    rewrite (backward_delivers _ _ _ _ _ Hrun2 a), (backward_delivers _ _ _ _ _ Hrun1 a).
    rewrite Ht. simpl. by rewrite (paths_same_shape fuel h h1 Hs1). }
  split; [|split; [exact Hboth|]].
  - intros t Ht. destruct fuel as [|fuel]; [lia|].
    split.
    + rewrite (backward_delivers _ _ _ _ _ Hrun1 n), Ht.
      by rewrite paths_self.
    + rewrite (Hboth n t Ht). by rewrite paths_self.
  - intros a t Ht Hnone Hone.
    rewrite (Hboth a t Ht), Hone. simpl. unfold deliver. simpl. by rewrite Hnone.
Qed.

Lemma C1_accumulation_witness :
  let h := final_heap (build_sum f1 f2 empty_heap) in
  well_formed h = true /\ 2 < length (tensor_objs h) /\ 2 < recursion_limit /\
  exists h1 h2,
    Tensor_backward recursion_limit 2 (VFloat f1) h = Ok tt h1 /\
    Tensor_backward recursion_limit 2 (VFloat f2) h1 = Ok tt h2 /\
    grad <$> get_tensor h2 0 = Some (Some (f1 + f2)%float).
Proof.
  intros h.
  assert (well_formed h = true) as Hwf by reflexivity.
  assert (2 < length (tensor_objs h)) as Hlen by (simpl; lia).
  assert (2 < recursion_limit) as Hfuel by (unfold recursion_limit; lia).
  split; [exact Hwf|]. split; [exact Hlen|]. split; [exact Hfuel|].
  destruct (C1_accumulation h 2 f1 f2 recursion_limit Hwf Hlen Hfuel)
    as (_ & _ & h1 & h2 & Hrun1 & Hrun2 & _ & _ & Hone).
  exists h1, h2. split; [exact Hrun1|]. split; [exact Hrun2|].
  apply (Hone 0 (mkTensor f1 None None None)); reflexivity.
Defined.

(** ** Order of accumulation and propagation *)

(** C6. One call of [backward] on a node that has a producer first
    accumulates the node's own gradient, and only then runs the producer's
    backward rule and the recursive calls, all in the heap that already
    holds the accumulated gradient; the rule is applied to the incoming
    gradient [g] itself, never to the accumulated total. So if the rule
    raises, the node's gradient is accumulated all the same; and on
    z = x + y with z.grad already [gz], z.backward(g) leaves
    z.grad = gz + g but hands [g] to both operands: fresh leaves end with
    gradient [g]. *)
Theorem C6_incoming_gradient_as_received fuel n g h t op f cs
  (Ht : get_tensor h n = Some t)
  (Hop : creation_op t = Some op)
  (Hf : get_function h op = Some f)
  (Hcs : creators t = Some cs) :
  let h1 := set_tensor n (with_grad t (Some (accumulate (grad t) g))) h in
  Tensor_backward (S fuel) n (VFloat g) h
  = match backward_of (fn_class f) g with
    | inl e => Raise e h1
    | inr grads => for_enumerate (propagate (Tensor_backward fuel) grads) cs 0 h1
    end /\
  grad <$> get_tensor h1 n = Some (Some (accumulate (grad t) g)) /\
  (fn_class f = Add_cls -> backward_of (fn_class f) g = inr [g; g]) /\
  (forall a b gz ts fs F,
     let x := length ts in
     let z := S (S x) in
     exists h2,
       Tensor_backward (S (S fuel)) z (VFloat g)
         (mkHeap
            (ts ++ [mkTensor a None None None; mkTensor b None None None;
                    mkTensor (a + b)%float (Some [x; S x]) (Some (length fs))
                      (Some gz)])
            (fs ++ [mkFunction Add_cls F (Some (a + b)%float)]))
       = Ok tt h2 /\
       grad <$> get_tensor h2 z = Some (Some (gz + g)%float) /\
       grad <$> get_tensor h2 x = Some (Some g) /\
       grad <$> get_tensor h2 (S x) = Some (Some g)).
Proof.
  intros h1. split; [|split; [|split]].
  - simpl. rewrite Ht, Hop.
    change (get_function (set_tensor n _ h) op) with (get_function h op).
    rewrite Hf, Hcs. done.
  - subst h1. by rewrite (get_set_tensor_eq _ _ _ _ Ht).
  - by intros ->.
  - intros a b gz ts fs F x z. subst x z.
    eexists. split; [apply backward_sum_run|].
    repeat split; run_py; reflexivity.
Qed.

Lemma C6_incoming_gradient_as_received_witness :
  let h := final_heap (build_abstract_rule empty_heap) in
  get_tensor h 1 = Some (mkTensor f2 (Some [0]) (Some 0) None) /\
  get_function h 0 = Some (mkFunction Function_cls None None) /\
  Tensor_backward recursion_limit 1 (VFloat f3) h
  = Raise NotImplementedError
      (mkHeap [mkTensor f1 None None None;
               mkTensor f2 (Some [0]) (Some 0) (Some f3)]
              [mkFunction Function_cls None None]).
Proof.
  intros h. split; [reflexivity|]. split; [reflexivity|].
  exact (proj1 (C6_incoming_gradient_as_received 999 1 f3 h
                  (mkTensor f2 (Some [0]) (Some 0) None) 0
                  (mkFunction Function_cls None None) [0]
                  eq_refl eq_refl eq_refl eq_refl)).
Defined.

(** ** Leaves *)

(** C7. In every heap built through the API (Tensor(v), instantiating and
    applying a Function, x + y, backward), a node has no producer exactly
    when it has no operands (absent or empty); a scalar made by Tensor(v)
    has neither, a node made by applying an operation has both, with two
    operands. And on any heap, [backward] on a node without producer
    returns at once, whatever the recursion budget left: the result is the
    heap with that node's gradient accumulated, every other node and every
    function object being as before. *)
Theorem C7_leaf_invariant :
  (forall calls a t,
     get_tensor (run_calls calls) a = Some t ->
     (creation_op t = None <-> creators t = None \/ creators t = Some [])) /\
  (forall x h,
     get_tensor (final_heap (Tensor_init (VFloat x) None None h)) (length (tensor_objs h))
     = Some (mkTensor x None None None)) /\
  (forall f ts h a h',
     Function_call f ts h = Ok a h' ->
     exists t c1 c2,
       get_tensor h' a = Some t /\ creation_op t = Some f /\
       creators t = Some ts /\ ts = [c1; c2]) /\
  (forall fuel n g h t,
     get_tensor h n = Some t -> creation_op t = None ->
     let h' := set_tensor n (with_grad t (Some (accumulate (grad t) g))) h in
     Tensor_backward (S fuel) n (VFloat g) h = Ok tt h' /\
     function_objs h' = function_objs h /\
     get_tensor h' n = Some (mkTensor (data t) (creators t) None (Some (accumulate (grad t) g))) /\
     forall b, b <> n -> get_tensor h' b = get_tensor h b).
Proof.
  split; [|split; [|split]].
  - intros calls a t Ht.
    pose proof (proj1 (well_formed_spec _) (run_calls_well_formed calls) a t Ht) as Hok.
    unfold node_ok in Hok.
    destruct (creation_op t) as [op|], (creators t) as [[|c1 [|c2 [|]]]|];
      try done;
      (split; [intros ?; first [done|by left]|intros [?|?]; done]).
  - intros x h. unfold get_tensor. simpl. by apply list_lookup_middle.
  - intros f ts h a h' Hrun.
    apply Function_call_Ok in Hrun
      as (fo & x & y & cx & cy & tx & ty & _ & _ & -> & _ & _ & _ & _ & -> & ->).
    eexists _, x, y. unfold get_tensor. simpl.
    split; [by apply list_lookup_middle|done].
  - intros fuel n g h t Ht Hop h'. simpl. rewrite Ht, Hop.
    split; [done|]. split; [done|]. split.
    + subst h'. rewrite (get_set_tensor_eq _ _ _ _ Ht).
      unfold with_grad. by rewrite Hop.
    + intros b Hb. subst h'. by rewrite get_set_tensor_ne.
Qed.

Lemma C7_leaf_invariant_witness :
  let h := run_calls [NewScalar (VFloat f1); NewScalar (VFloat f2); Plus 0 1] in
  get_tensor h 0 = Some (mkTensor f1 None None None) /\
  get_tensor h 2 = Some (mkTensor f3 (Some [0; 1]) (Some 0) None) /\
  (creation_op (mkTensor f3 (Some [0; 1]) (Some 0) None) = None <->
   creators (mkTensor f3 (Some [0; 1]) (Some 0) None) = None \/
   creators (mkTensor f3 (Some [0; 1]) (Some 0) None) = Some []) /\
  Tensor_backward 1 0 (VFloat f4) h
  = Ok tt (set_tensor 0 (mkTensor f1 None None (Some f4)) h).
Proof.
  intros h. split; [reflexivity|]. split; [reflexivity|]. split.
  - exact (proj1 C7_leaf_invariant
             [NewScalar (VFloat f1); NewScalar (VFloat f2); Plus 0 1] 2
             (mkTensor f3 (Some [0; 1]) (Some 0) None) eq_refl).
  - exact (proj1 (proj2 (proj2 (proj2 C7_leaf_invariant)) 0 0 f4 h
                    (mkTensor f1 None None None) eq_refl eq_refl)).
Defined.

(** ** Failures *)

(** C8, as stated, fails: when the backward rule returns fewer gradients
    than the node has operands, t.backward(1.0) raises [IndexError] at the
    third operand, after the gradients of [t] and of the first two operands
    have been written; they stay written. Likewise on a graph built with
    [+] alone that is deeper than the recursion limit: backward raises
    [RecursionError] after it has written the gradients of the nodes it
    went through. *)
Lemma C8_partial_mutation_counterexample :
  match build_chain (S recursion_limit) empty_heap with
  | Ok top h =>
      match Tensor_backward recursion_limit top (VFloat f1) h with
      | Raise RecursionError h' =>
          grad <$> get_tensor h top = Some None /\
          grad <$> get_tensor h' top = Some (Some f1)
      | _ => False
      end
  | Raise _ _ => False
  end /\
  exists h h',
    build_arity_mismatch empty_heap = Ok 3 h /\
    grad <$> get_tensor h 0 = Some None /\
    grad <$> get_tensor h 1 = Some None /\
    grad <$> get_tensor h 3 = Some None /\
    Tensor_backward recursion_limit 3 (VFloat f1) h = Raise IndexError h' /\
    grad <$> get_tensor h' 0 = Some (Some f1) /\
    grad <$> get_tensor h' 1 = Some (Some f1) /\
    grad <$> get_tensor h' 2 = Some None /\
    grad <$> get_tensor h' 3 = Some (Some f1) /\
    h' <> h.
Proof.
  split.
  { vm_compute. split; reflexivity. }
  eexists _, _. split; [reflexivity|]. do 3 (split; [reflexivity|]).
  split; [vm_compute; reflexivity|]. do 4 (split; [reflexivity|]).
  intros H. apply (f_equal (fun s => grad <$> get_tensor s 0)) in H.
  vm_compute in H. discriminate H.
Qed.

(** The loop over a list in two pieces: the second piece starts in the
    heap the first one leaves, and is not run if the first one raises. *)
Lemma for_enumerate_app {A} (body : nat -> A -> M unit) (l1 l2 : list A) :
  forall i h,
    for_enumerate body (l1 ++ l2) i h
    = match for_enumerate body l1 i h with
      | Ok _ h' => for_enumerate body l2 (i + length l1) h'
      | Raise e h' => Raise e h'
      end.
Proof.
  induction l1 as [|x l1 IH]; intros i h; simpl.
  - by rewrite Nat.add_0_r.
  - destruct (body i x h) as [[] h'|e h']; [|done].
    rewrite IH. by rewrite Nat.add_succ_r.
Qed.

Lemma propagate_accumulates fuel g i c h :
  accumulated g h (final_heap (propagate (Tensor_backward fuel) [g; g] i c h)).
Proof.
  unfold propagate. destruct i as [|[|i]]; simpl;
    try apply backward_accumulates. apply accumulated_refl.
Qed.

(** After its own accumulation, a call only adds to gradients, whether it
    returns or raises. *)
Lemma backward_after_own fuel g n h t :
  get_tensor h n = Some t ->
  accumulated g
    (set_tensor n (with_grad t (Some (accumulate (grad t) g))) h)
    (final_heap (Tensor_backward (S fuel) n (VFloat g) h)).
Proof.
  intros Ht. simpl. rewrite Ht.
  destruct (creation_op t) as [op|]; [|apply accumulated_refl].
  destruct (get_function _ op) as [f|]; [|apply accumulated_refl].
  destruct (fn_class f); simpl; [apply accumulated_refl|].
  destruct (creators t) as [cs|]; [|apply accumulated_refl].
  apply (for_enumerate_final (accumulated g));
    [apply accumulated_refl|apply accumulated_trans|].
  intros i c h'. apply propagate_accumulates.
Qed.

(** C8, amended. A [Function.__call__] that raises creates no node and
    changes no node (it has assigned [self.tensors]); a [Tensor(...)] that
    raises changes nothing. A [backward] whose gradient is not a [float]
    raises before any mutation. A [backward] that raises later keeps
    every accumulation made before the raise, and the heap it leaves
    differs from the initial one in gradient fields only: the node it was
    called on has accumulated the gradient at least once, and no node has
    lost any; when the producer's rule raises, the heap left is exactly
    the initial one with the node's own gradient accumulated; when the
    passes on the first creators have returned and the pass on a later
    creator raises (recursion limit, too few gradients, a failure
    further down), the call raises the same exception with exactly the
    heap that failing pass left, which holds everything the earlier
    passes wrote. *)
Theorem C8_failure_effects :
  (forall f ts h e h',
     Function_call f ts h = Raise e h' -> tensor_objs h' = tensor_objs h) /\
  (forall v cs op h e h',
     Tensor_init v cs op h = Raise e h' -> h' = h) /\
  (forall fuel n g h,
     isinstance_float g = false ->
     succeeded (Tensor_backward fuel n g h) = false /\
     final_heap (Tensor_backward fuel n g h) = h) /\
  (forall fuel n g h e h',
     Tensor_backward fuel n g h = Raise e h' -> same_shape h h') /\
  (forall fuel n g h t e h',
     get_tensor h n = Some t ->
     Tensor_backward (S fuel) n (VFloat g) h = Raise e h' ->
     (exists k, get_tensor h' n = Some (receive (S k) g t)) /\
     (forall a, exists k, get_tensor h' a = receive k g <$> get_tensor h a)) /\
  (forall fuel n g h t op f e,
     get_tensor h n = Some t -> creation_op t = Some op ->
     get_function h op = Some f -> backward_of (fn_class f) g = inl e ->
     Tensor_backward (S fuel) n (VFloat g) h
     = Raise e (set_tensor n (with_grad t (Some (accumulate (grad t) g))) h)) /\
  (forall fuel n g h t op f pre c post hm e hf,
     get_tensor h n = Some t -> creation_op t = Some op ->
     get_function h op = Some f -> fn_class f = Add_cls ->
     creators t = Some (pre ++ c :: post) ->
     for_enumerate (propagate (Tensor_backward fuel) [g; g]) pre 0
       (set_tensor n (with_grad t (Some (accumulate (grad t) g))) h)
     = Ok tt hm ->
     propagate (Tensor_backward fuel) [g; g] (length pre) c hm = Raise e hf ->
     Tensor_backward (S fuel) n (VFloat g) h = Raise e hf /\
     (forall a, exists k, get_tensor hf a = receive k g <$> get_tensor hm a)).
Proof.
  split; [|split; [|split; [|split; [|split; [|split]]]]].
  - intros f ts h e h' Hrun. by apply Function_call_Raise in Hrun as [? _].
  - intros v cs op h e h' Hrun. destruct v; simpl in Hrun; congruence.
  - intros fuel n g h Hg. destruct fuel, g; done.
  - intros fuel n g h e h' Hrun.
    pose proof (backward_same_shape fuel n g h) as Hs. by rewrite Hrun in Hs.
  - intros fuel n g h t e h' Ht Hrun.
    pose proof (backward_after_own fuel g n h t Ht) as Hown.
    pose proof (backward_accumulates (S fuel) g n h) as Hall.
    rewrite Hrun in Hown, Hall. simpl in Hown, Hall.
    split; [|exact Hall].
    destruct (Hown n) as [k Hk]. exists k.
    rewrite Hk, (get_set_tensor_eq _ _ _ _ Ht). simpl.
    change (with_grad t (Some (accumulate (grad t) g))) with (receive 1 g t).
    by rewrite receive_add.
  - intros fuel n g h t op f e Ht Hop Hf He. simpl. rewrite Ht, Hop.
    change (get_function (set_tensor n _ h) op) with (get_function h op).
    by rewrite Hf, He.
  - intros fuel n g h t op f pre c post hm e hf Ht Hop Hf Hcls Hcs Hpre Hc.
    split.
    + simpl. rewrite Ht, Hop.
      change (get_function (set_tensor n _ h) op) with (get_function h op).
      rewrite Hf, Hcls, Hcs. simpl.
      rewrite for_enumerate_app, Hpre. simpl. by rewrite Hc.
    + pose proof (propagate_accumulates fuel g (length pre) c hm) as Hacc.
      by rewrite Hc in Hacc.
Qed.

Lemma C8_failure_effects_witness :
  let h := final_heap (build_arity_mismatch empty_heap) in
  isinstance_float (VInt 1) = false /\
  Tensor_backward recursion_limit 3 (VInt 1) h = Raise TypeError h /\
  Function_call 0 [0] h
  = Raise TypeError (set_function 0 (mkFunction Add_cls (Some [0]) None) h) /\
  tensor_objs (set_function 0 (mkFunction Add_cls (Some [0]) None) h) = tensor_objs h /\
  same_shape h (final_heap (Tensor_backward recursion_limit 3 (VFloat f1) h)) /\
  (exists k,
     get_tensor (final_heap (Tensor_backward recursion_limit 3 (VFloat f1) h)) 3
     = Some (receive (S k) f1 (mkTensor f4 (Some [0; 1; 2]) (Some 0) None))) /\
  Tensor_backward recursion_limit 3 (VFloat f1) h
  = Raise IndexError
      (mkHeap [mkTensor f1 None None (Some f1); mkTensor f2 None None (Some f1);
               mkTensor f3 None None None;
               mkTensor f4 (Some [0; 1; 2]) (Some 0) (Some f1)]
              [mkFunction Add_cls None None]).
Proof.
  intros h.
  destruct C8_failure_effects as (Hcall & _ & _ & Hshape & Hown & _ & Hlater).
  assert (Tensor_backward recursion_limit 3 (VFloat f1) h
          = Raise IndexError
              (mkHeap [mkTensor f1 None None (Some f1); mkTensor f2 None None (Some f1);
                       mkTensor f3 None None None;
                       mkTensor f4 (Some [0; 1; 2]) (Some 0) (Some f1)]
                      [mkFunction Add_cls None None])) as Hrun.
  { refine (proj1 (Hlater 999 3 f1 h (mkTensor f4 (Some [0; 1; 2]) (Some 0) None) 0
                     (mkFunction Add_cls None None) [0; 1] 2 [] _ IndexError _
                     eq_refl eq_refl eq_refl eq_refl eq_refl _ _));
      vm_compute; reflexivity. }
  split; [reflexivity|]. split; [reflexivity|].
  split; [reflexivity|]. split; [exact (Hcall 0 [0] h TypeError _ eq_refl)|].
  split; [|split; [|exact Hrun]].
  - rewrite Hrun. exact (Hshape recursion_limit 3 (VFloat f1) h IndexError _ Hrun).
  - rewrite Hrun. exact (proj1 (Hown 999 3 f1 h _ IndexError _ eq_refl Hrun)).
Defined.


(** * Further properties of the code *)

(** ** Applying a function *)

Lemma read_data_valid ts : forall h,
  Forall (fun a => a < length (tensor_objs h)) ts ->
  exists ds, read_data ts h = Ok ds h /\ length ds = length ts.
Proof.
  induction ts as [|t ts IH]; intros h Hall; simpl.
  - by exists [].
  - apply Forall_cons in Hall as [Ht Hall].
    destruct (lookup_lt_is_Some_2 _ _ Ht) as [o Ho].
    fold (get_tensor h t) in Ho. rewrite Ho.
    destruct (IH h Hall) as (ds & -> & Hlen).
    exists (data o :: ds). split; [done|]. simpl. by rewrite Hlen.
Qed.

(** X1. Applying an instance of the base class [Function] to existing
    tensors, however many, raises [NotImplementedError] from the abstract
    [forward]: no node is created and no node changes, but the instance
    has already recorded the operands in [self.tensors]; [self.output]
    keeps what it held. *)
Theorem X1_abstract_function_apply self ts h f
  (Hf : get_function h self = Some f)
  (Hcls : fn_class f = Function_cls)
  (Hts : Forall (fun a => a < length (tensor_objs h)) ts) :
  Function_call self ts h
  = Raise NotImplementedError
      (set_function self (mkFunction Function_cls (Some ts) (output f)) h) /\
  tensor_objs (final_heap (Function_call self ts h)) = tensor_objs h /\
  get_function (final_heap (Function_call self ts h)) self
  = Some (mkFunction Function_cls (Some ts) (output f)).
Proof.
  assert (Function_call self ts h
          = Raise NotImplementedError
              (set_function self (mkFunction Function_cls (Some ts) (output f)) h))
    as Hrun.
  { unfold Function_call. rewrite Hf, Hcls.
    destruct (read_data_valid ts
                (set_function self (mkFunction Function_cls (Some ts) (output f)) h) Hts)
      as (ds & -> & _). done. }
  rewrite Hrun. split; [done|]. split; [done|].
  unfold get_function in *. simpl.
  apply list_lookup_insert_eq. by eapply lookup_lt_Some.
Qed.

Lemma X1_abstract_function_apply_witness :
  let h := final_heap (build_abstract_rule empty_heap) in
  Function_call 0 [1; 0; 1] h
  = Raise NotImplementedError
      (mkHeap [mkTensor f1 None None None; mkTensor f2 (Some [0]) (Some 0) None]
              [mkFunction Function_cls (Some [1; 0; 1]) None]).
Proof.
  intros h.
  refine (proj1 (X1_abstract_function_apply 0 [1; 0; 1] h
                   (mkFunction Function_cls None None) eq_refl eq_refl _)).
  repeat constructor.
Defined.

(** X2. An [Add] instance applies to exactly two tensors: called on
    existing tensors whose number is not two, it raises [TypeError] (the
    call of [forward] has the wrong number of arguments), creates no node
    and changes no node, having recorded the operands in [self.tensors]. *)
Theorem X2_add_arity self ts h f
  (Hf : get_function h self = Some f)
  (Hcls : fn_class f = Add_cls)
  (Hts : Forall (fun a => a < length (tensor_objs h)) ts)
  (Hlen : length ts <> 2) :
  Function_call self ts h
  = Raise TypeError (set_function self (mkFunction Add_cls (Some ts) (output f)) h) /\
  tensor_objs (final_heap (Function_call self ts h)) = tensor_objs h.
Proof.
  assert (Function_call self ts h
          = Raise TypeError
              (set_function self (mkFunction Add_cls (Some ts) (output f)) h))
    as Hrun.
  { unfold Function_call. rewrite Hf, Hcls.
    destruct (read_data_valid ts
                (set_function self (mkFunction Add_cls (Some ts) (output f)) h) Hts)
      as (ds & -> & Hds).
    simpl. unfold Add_forward.
    destruct ds as [|d1 [|d2 [|d3 ds]]]; try done; simpl in Hds; lia. }
  rewrite Hrun. done.
Qed.

Lemma X2_add_arity_witness :
  let h := final_heap (build_arity_mismatch empty_heap) in
  Function_call 0 [0; 1; 2] h
  = Raise TypeError (set_function 0 (mkFunction Add_cls (Some [0; 1; 2]) None) h) /\
  Function_call 0 [] h
  = Raise TypeError (set_function 0 (mkFunction Add_cls (Some []) None) h).
Proof.
  intros h. split.
  - refine (proj1 (X2_add_arity 0 [0; 1; 2] h (mkFunction Add_cls None None)
                     eq_refl eq_refl _ _)); [repeat constructor|simpl; lia].
  - refine (proj1 (X2_add_arity 0 [] h (mkFunction Add_cls None None)
                     eq_refl eq_refl _ _)); [constructor|simpl; lia].
Defined.

(** What [Function.__call__] does on an [Add] instance and two existing
    tensors. *)
Lemma Function_call_add self x y h f tx ty :
  get_function h self = Some f ->
  fn_class f = Add_cls ->
  get_tensor h x = Some tx ->
  get_tensor h y = Some ty ->
  Function_call self [x; y] h
  = Ok (length (tensor_objs h))
       (mkHeap
          (tensor_objs h
           ++ [mkTensor (data tx + data ty)%float (Some [x; y]) (Some self) None])
          (<[self := mkFunction Add_cls (Some [x; y]) (Some (data tx + data ty)%float)]>
             (function_objs h))).
Proof.
  intros Hf Hcls Hx Hy. unfold Function_call. rewrite Hf, Hcls. simpl.
  change (get_tensor (set_function self _ h) x) with (get_tensor h x).
  change (get_tensor (set_function self _ h) y) with (get_tensor h y).
  rewrite Hx, Hy. simpl. by rewrite list_insert_insert_eq.
Qed.

(** X3. Applying an [Add] instance to two existing tensors always
    succeeds, whatever their values: the result is a new node, at the next
    free address, whose data is the sum of the operands' data, whose
    creators are the operands in order, whose creation_op is the instance
    and whose gradient is absent; the instance caches the operands and the
    same sum as [output]; every node that existed, gradients included, and
    every other function object is as before. *)
Theorem X3_add_apply self x y h f tx ty
  (Hf : get_function h self = Some f)
  (Hcls : fn_class f = Add_cls)
  (Hx : get_tensor h x = Some tx)
  (Hy : get_tensor h y = Some ty) :
  let out := (data tx + data ty)%float in
  exists h',
    Function_call self [x; y] h = Ok (length (tensor_objs h)) h' /\
    get_tensor h' (length (tensor_objs h))
    = Some (mkTensor out (Some [x; y]) (Some self) None) /\
    length (tensor_objs h') = S (length (tensor_objs h)) /\
    (forall b t, get_tensor h b = Some t -> get_tensor h' b = Some t) /\
    get_function h' self = Some (mkFunction Add_cls (Some [x; y]) (Some out)) /\
    (forall r, r <> self -> get_function h' r = get_function h r).
Proof.
  intros out. eexists. split; [by eapply Function_call_add|].
  unfold get_tensor, get_function in *. simpl.
  split; [by apply list_lookup_middle|].
  split; [by rewrite length_app; simpl; lia|].
  split; [intros b t Hb; by apply lookup_app_l_Some|].
  split.
  - apply list_lookup_insert_eq. by eapply lookup_lt_Some.
  - intros r Hr. by rewrite list_lookup_insert_ne.
Qed.

Lemma X3_add_apply_witness :
  let h := final_heap (build_arity_mismatch empty_heap) in
  exists h',
    Function_call 0 [2; 1] h = Ok 4 h' /\
    get_tensor h' 4 = Some (mkTensor (f3 + f2)%float (Some [2; 1]) (Some 0) None).
Proof.
  intros h.
  destruct (X3_add_apply 0 2 1 h (mkFunction Add_cls None None)
              (mkTensor f3 None None None) (mkTensor f2 None None None)
              eq_refl eq_refl eq_refl eq_refl) as (h' & Hrun & Hnew & _).
  exists h'. split; [exact Hrun|exact Hnew].
Defined.

(** ** The addition operator *)

Lemma SF64add_comm (x y : spec_float) : SF64add x y = SF64add y x.
Proof.
  destruct x as [[]|[]| |sx mx ex], y as [[]|[]| |sy my ey]; try reflexivity.
  unfold SF64add, SFadd. by rewrite (Z.min_comm ey ex), Z.add_comm.
Qed.

(** Binary64 addition is commutative. *)
Lemma float_add_comm (a b : float) : (a + b)%float = (b + a)%float.
Proof. apply Prim2SF_inj. rewrite !add_spec. apply SF64add_comm. Qed.

(** What [x + y] does on two existing tensors. *)
Lemma Tensor_add_run u v h tu tv :
  get_tensor h u = Some tu -> get_tensor h v = Some tv ->
  Tensor_add u v h
  = Ok (length (tensor_objs h))
       (mkHeap
          (tensor_objs h
           ++ [mkTensor (data tu + data tv)%float (Some [u; v])
                 (Some (length (function_objs h))) None])
          (function_objs h
           ++ [mkFunction Add_cls (Some [u; v]) (Some (data tu + data tv)%float)])).
Proof.
  intros Hu Hv. unfold Tensor_add, bind, Function_new.
  erewrite Function_call_add;
    [|unfold get_function; simpl; by apply list_lookup_middle|done|exact Hu|exact Hv].
  simpl. by rewrite insert_new0.
Qed.

(** X4. [x + y] on two existing tensors always succeeds. It makes a new
    [Add] instance for this one use, never one that an existing node
    already has, and a new node whose data is the sum of the operands'
    data and whose gradient is absent; the operands and every other
    existing node and function object are untouched. The value does not
    depend on the order of the operands: [y + x] gives a node with the
    same data (and creators in the other order). *)
Theorem X4_add_operator x y h tx ty
  (Hx : get_tensor h x = Some tx)
  (Hy : get_tensor h y = Some ty) :
  let z := length (tensor_objs h) in
  let op := length (function_objs h) in
  exists h1 h2,
    Tensor_add x y h = Ok z h1 /\
    get_function h op = None /\
    (well_formed h = true ->
     forall a t, get_tensor h a = Some t -> creation_op t <> Some op) /\
    get_tensor h1 z
    = Some (mkTensor (data tx + data ty)%float (Some [x; y]) (Some op) None) /\
    get_function h1 op
    = Some (mkFunction Add_cls (Some [x; y]) (Some (data tx + data ty)%float)) /\
    (forall b t, get_tensor h b = Some t -> get_tensor h1 b = Some t) /\
    (forall r fo, get_function h r = Some fo -> get_function h1 r = Some fo) /\
    Tensor_add y x h = Ok z h2 /\
    get_tensor h2 z
    = Some (mkTensor (data tx + data ty)%float (Some [y; x]) (Some op) None).
Proof.
  intros z op. subst z op.
  eexists _, _. split; [by apply Tensor_add_run|].
  assert (get_function h (length (function_objs h)) = None) as Hfresh.
  { unfold get_function. by apply lookup_ge_None_2. }
  split; [exact Hfresh|]. split.
  { intros Hwf a t Ha Hop.
    pose proof (proj1 (well_formed_spec h) Hwf a t Ha) as Hok.
    unfold node_ok in Hok. rewrite Hop, Hfresh in Hok.
    by destruct (creators t) as [[|c1 [|c2 [|]]]|]. }
  unfold get_tensor, get_function in *. simpl.
  split; [by apply list_lookup_middle|].
  split; [by apply list_lookup_middle|].
  split; [intros b t Hb; by apply lookup_app_l_Some|].
  split; [intros r fo Hr; by apply lookup_app_l_Some|].
  split; [by apply Tensor_add_run|].
  rewrite (float_add_comm (data tx) (data ty)). by apply list_lookup_middle.
Qed.

Lemma X4_add_operator_witness :
  let h := final_heap (build_sum f1 f2 empty_heap) in
  exists h1 h2,
    Tensor_add 2 0 h = Ok 3 h1 /\
    get_tensor h1 3 = Some (mkTensor (f3 + f1)%float (Some [2; 0]) (Some 1) None) /\
    Tensor_add 0 2 h = Ok 3 h2 /\
    get_tensor h2 3 = Some (mkTensor (f3 + f1)%float (Some [0; 2]) (Some 1) None).
Proof.
  intros h.
  destruct (X4_add_operator 2 0 h
              (mkTensor f3 (Some [0; 1]) (Some 0) None) (mkTensor f1 None None None)
              eq_refl eq_refl)
    as (h1 & h2 & Hrun1 & _ & _ & Hz1 & _ & _ & _ & Hrun2 & Hz2).
  exists h1, h2. repeat split; assumption.
Defined.

(** ** What a pass reads *)

Lemma erase_eq_fields t t' :
  erase_data t = erase_data t' ->
  creators t = creators t' /\ creation_op t = creation_op t' /\ grad t = grad t'.
Proof. destruct t, t'. unfold erase_data. simpl. intros [= -> -> ->]. done. Qed.

Lemma graph_lookup_tensor h h' a :
  graph_of h = graph_of h' ->
  erase_data <$> get_tensor h a = erase_data <$> get_tensor h' a.
Proof.
  unfold graph_of, get_tensor. intros [= Ht _].
  by rewrite <- !list_lookup_fmap, Ht.
Qed.

Lemma graph_lookup_function h h' r :
  graph_of h = graph_of h' ->
  fn_class <$> get_function h r = fn_class <$> get_function h' r.
Proof.
  unfold graph_of, get_function. intros [= _ Hf].
  by rewrite <- !list_lookup_fmap, Hf.
Qed.

Lemma graph_set_grad h h' a t t' g :
  graph_of h = graph_of h' ->
  erase_data t = erase_data t' ->
  graph_of (set_tensor a (with_grad t g) h)
  = graph_of (set_tensor a (with_grad t' g) h').
Proof.
  unfold graph_of. simpl. intros [= Ht Hf] He.
  apply erase_eq_fields in He as (Hc & Ho & _).
  rewrite !list_fmap_insert, Ht, Hf. unfold erase_data, with_grad. simpl.
  by rewrite Hc, Ho.
Qed.

Lemma for_enumerate_skeleton {A} (body body' : nat -> A -> M unit) :
  (forall i c h h', graph_of h = graph_of h' ->
     skeleton (body i c h) = skeleton (body' i c h')) ->
  forall cs i h h', graph_of h = graph_of h' ->
    skeleton (for_enumerate body cs i h) = skeleton (for_enumerate body' cs i h').
Proof.
  intros Hbody cs. induction cs as [|c cs IH]; intros i h h' Hg; simpl.
  - by rewrite Hg.
  - specialize (Hbody i c h h' Hg).
    destruct (body i c h) as [[] h1|e h1], (body' i c h') as [[] h1'|e' h1'];
      simpl in Hbody; try done.
    apply IH. congruence.
Qed.

Lemma backward_skeleton fuel :
  forall n g h h', graph_of h = graph_of h' ->
    skeleton (Tensor_backward fuel n g h) = skeleton (Tensor_backward fuel n g h').
Proof.
  induction fuel as [|fuel IH]; intros n g h h' Hg; simpl; [by rewrite Hg|].
  destruct g as [| | |gr|]; try (by simpl; rewrite Hg).
  pose proof (graph_lookup_tensor h h' n Hg) as Hn.
  destruct (get_tensor h n) as [t|], (get_tensor h' n) as [t'|];
    simpl in Hn; try done; [|by simpl; rewrite Hg].
  assert (erase_data t = erase_data t') as He by congruence.
  pose proof (graph_set_grad h h' n t t' (Some (accumulate (grad t) gr)) Hg He) as Hg1.
  apply erase_eq_fields in He as (Hc & Ho & Hgr).
  rewrite <- Hc, <- Ho, <- Hgr.
  destruct (creation_op t) as [op|]; [|by simpl; rewrite Hg1].
  pose proof (graph_lookup_function _ _ op Hg1) as Hop.
  destruct (get_function (set_tensor n _ h) op) as [f|],
           (get_function (set_tensor n _ h') op) as [f'|];
    simpl in Hop; try done; [|by simpl; rewrite Hg1].
  assert (fn_class f = fn_class f') as <- by congruence.
  destruct (backward_of (fn_class f) gr) as [e|grads]; [by simpl; rewrite Hg1|].
  destruct (creators t) as [cs|]; [|by simpl; rewrite Hg1].
  apply for_enumerate_skeleton; [|exact Hg1].
  intros i c h2 h2' Hg2. unfold propagate.
  destruct (grads !! i); [by apply IH|by simpl; rewrite Hg2].
Qed.

(** X5. [backward] reads the graph and the gradients only: it never reads
    the data of a node, nor the operands and the output that a function
    object has captured. On two heaps with the same creators,
    creation_ops and gradients node by node, and the same classes of
    function objects, the same call returns or raises the same exception,
    and leaves the same gradient in every node, whatever the values and
    the captured attributes. *)
Theorem X5_backward_reads_graph_only fuel n g h h'
  (Hg : graph_of h = graph_of h') :
  skeleton (Tensor_backward fuel n g h) = skeleton (Tensor_backward fuel n g h') /\
  succeeded (Tensor_backward fuel n g h) = succeeded (Tensor_backward fuel n g h') /\
  forall a,
    grad <$> get_tensor (final_heap (Tensor_backward fuel n g h)) a
    = grad <$> get_tensor (final_heap (Tensor_backward fuel n g h')) a.
Proof.
  pose proof (backward_skeleton fuel n g h h' Hg) as Hs.
  split; [exact Hs|].
  destruct (Tensor_backward fuel n g h) as [[] h1|e h1],
           (Tensor_backward fuel n g h') as [[] h1'|e' h1'];
    simpl in Hs |- *; try done.
  - split; [done|]. intros a.
    assert (graph_of h1 = graph_of h1') as Hg1 by congruence.
    pose proof (graph_lookup_tensor h1 h1' a Hg1) as Ha.
    destruct (get_tensor h1 a) as [t|], (get_tensor h1' a) as [t'|];
      simpl in Ha |- *; try done.
    assert (erase_data t = erase_data t') as He by congruence.
    apply erase_eq_fields in He as (_ & _ & ->). done.
  - split; [done|]. intros a.
    assert (graph_of h1 = graph_of h1') as Hg1 by congruence.
    pose proof (graph_lookup_tensor h1 h1' a Hg1) as Ha.
    destruct (get_tensor h1 a) as [t|], (get_tensor h1' a) as [t'|];
      simpl in Ha |- *; try done.
    assert (erase_data t = erase_data t') as He by congruence.
    apply erase_eq_fields in He as (_ & _ & ->). done.
Qed.

Lemma X5_backward_reads_graph_only_witness :
  let h := final_heap (build_sum f1 f2 empty_heap) in
  let h' := final_heap (build_sum f4 f3 empty_heap) in
  graph_of h = graph_of h' /\
  h <> h' /\
  forall a,
    grad <$> get_tensor (final_heap (Tensor_backward recursion_limit 2 (VFloat f2) h)) a
    = grad <$> get_tensor (final_heap (Tensor_backward recursion_limit 2 (VFloat f2) h')) a.
Proof.
  intros h h'.
  assert (graph_of h = graph_of h') as Hg by reflexivity.
  split; [exact Hg|]. split.
  - intros H.
    apply (f_equal (fun s => match get_tensor s 0 with
                             | Some t => (data t =? f1)%float
                             | None => false
                             end)) in H.
    vm_compute in H. discriminate H.
  - exact (proj2 (proj2 (X5_backward_reads_graph_only recursion_limit 2 (VFloat f2)
                           h h' Hg))).
Defined.

(** ** Forward values *)

Lemma forward_consistent_same_shape h h' :
  same_shape h h' -> forward_consistent h -> forward_consistent h'.
Proof.
  intros Hs Hfc a t' Ha Hop.
  assert (forall b u', get_tensor h' b = Some u' ->
            exists u, get_tensor h b = Some u /\ strip u' = strip u) as Hback.
  { intros b u' Hb. pose proof (same_shape_lookup h h' b Hs) as Hl.
    rewrite Hb in Hl. destruct (get_tensor h b) as [u|]; [|done].
    exists u. split; [done|]. simpl in Hl. congruence. }
  assert (forall b u, get_tensor h b = Some u ->
            exists u', get_tensor h' b = Some u' /\ strip u' = strip u) as Hforth.
  { intros b u Hb. pose proof (same_shape_lookup h h' b Hs) as Hl.
    rewrite Hb in Hl. destruct (get_tensor h' b) as [u'|]; [|done].
    exists u'. split; [done|]. simpl in Hl. congruence. }
  destruct (Hback a t' Ha) as (t & Ht & Hst).
  apply strip_eq_fields in Hst as (Hd & Hc & Ho).
  destruct (Hfc a t Ht) as (c1 & c2 & t1 & t2 & Hcs & H1 & H2 & Hsum);
    [congruence|].
  destruct (Hforth c1 t1 H1) as (t1' & H1' & Hst1).
  destruct (Hforth c2 t2 H2) as (t2' & H2' & Hst2).
  apply strip_eq_fields in Hst1 as (Hd1 & _). apply strip_eq_fields in Hst2 as (Hd2 & _).
  exists c1, c2, t1', t2'. repeat split; [congruence|done|done|congruence].
Qed.

Lemma forward_consistent_same_tensors h h' :
  tensor_objs h' = tensor_objs h -> forward_consistent h -> forward_consistent h'.
Proof.
  intros Hts Hfc a t Ha Hop. unfold get_tensor in *. rewrite Hts in Ha.
  destruct (Hfc a t Ha Hop) as (c1 & c2 & t1 & t2 & Hcs & H1 & H2 & Hsum).
  exists c1, c2, t1, t2. rewrite Hts. done.
Qed.

Lemma forward_consistent_snoc h h' t :
  tensor_objs h' = tensor_objs h ++ [t] ->
  forward_consistent h ->
  (creation_op t <> None ->
   exists c1 c2 t1 t2,
     creators t = Some [c1; c2] /\
     get_tensor h c1 = Some t1 /\ get_tensor h c2 = Some t2 /\
     data t = (data t1 + data t2)%float) ->
  forward_consistent h'.
Proof.
  intros Hts Hfc Hnew a u Ha Hop. unfold get_tensor in *. rewrite Hts in Ha |- *.
  assert (exists c1 c2 t1 t2,
            creators u = Some [c1; c2] /\
            tensor_objs h !! c1 = Some t1 /\ tensor_objs h !! c2 = Some t2 /\
            data u = (data t1 + data t2)%float) as (c1 & c2 & t1 & t2 & Hcs & H1 & H2 & Hsum).
  { apply lookup_snoc_Some in Ha as [[_ Hold]|[_ <-]]; [by apply (Hfc a)|by apply Hnew]. }
  exists c1, c2, t1, t2.
  repeat split; [done|by apply lookup_app_l_Some|by apply lookup_app_l_Some|done].
Qed.

Lemma Function_call_forward_consistent self ts h :
  forward_consistent h -> forward_consistent (final_heap (Function_call self ts h)).
Proof.
  intros Hfc. destruct (Function_call self ts h) as [a h'|e h'] eqn:Hrun; simpl.
  - apply Function_call_Ok in Hrun
      as (f & x & y & cx & cy & tx & ty & _ & _ & -> & Hx & <- & Hy & <- & _ & ->).
    eapply forward_consistent_snoc; [done|exact Hfc|].
    intros _. exists x, y, tx, ty. done.
  - apply Function_call_Raise in Hrun as [Hts _].
    by eapply forward_consistent_same_tensors.
Qed.

Lemma run_call_forward_consistent h c :
  forward_consistent h -> forward_consistent (run_call h c).
Proof.
  intros Hfc. destruct c as [v|c|f ts|x y|fuel n g]; simpl.
  - destruct v; simpl; try done.
    eapply forward_consistent_snoc; [done|exact Hfc|]. by intros [].
  - by eapply forward_consistent_same_tensors.
  - by apply Function_call_forward_consistent.
  - unfold Tensor_add, bind. simpl. apply Function_call_forward_consistent.
    by eapply forward_consistent_same_tensors.
  - eapply forward_consistent_same_shape; [apply backward_same_shape|done].
Qed.

Lemma run_calls_forward_consistent cs : forward_consistent (run_calls cs).
Proof.
  unfold run_calls.
  assert (forward_consistent empty_heap) as H0 by (by intros [|a] t Ha).
  revert H0. generalize empty_heap.
  induction cs as [|c cs IH]; intros h Hfc; simpl; [done|].
  apply IH. by apply run_call_forward_consistent.
Qed.

(** X6. In every heap built through the API, at every moment and after
    any number of backward passes, the value of a node that has a producer
    is the binary64 sum of the values of its two creators, which exist in
    the heap: values are computed once, by [Add.forward], and nothing
    changes them afterwards. *)
Theorem X6_values_are_sums calls a t
  (Ha : get_tensor (run_calls calls) a = Some t)
  (Hop : creation_op t <> None) :
  exists c1 c2 t1 t2,
    creators t = Some [c1; c2] /\
    get_tensor (run_calls calls) c1 = Some t1 /\
    get_tensor (run_calls calls) c2 = Some t2 /\
    data t = (data t1 + data t2)%float.
Proof. by apply (run_calls_forward_consistent calls a t). Qed.

Lemma X6_values_are_sums_witness :
  let calls := [NewScalar (VFloat f1); NewScalar (VFloat f2); Plus 0 1;
                Backward recursion_limit 2 (VFloat f4); Plus 2 0] in
  get_tensor (run_calls calls) 3 = Some (mkTensor 4%float (Some [2; 0]) (Some 1) None) /\
  exists c1 c2 t1 t2,
    Some [2; 0] = Some [c1; c2] /\
    get_tensor (run_calls calls) c1 = Some t1 /\
    get_tensor (run_calls calls) c2 = Some t2 /\
    4%float = (data t1 + data t2)%float.
Proof.
  intros calls.
  assert (get_tensor (run_calls calls) 3
          = Some (mkTensor 4%float (Some [2; 0]) (Some 1) None)) as Ha
    by (vm_compute; reflexivity).
  split; [exact Ha|].
  exact (X6_values_are_sums calls 3 _ Ha ltac:(discriminate)).
Defined.

(** ** Which calls write what *)

Lemma Function_call_tensors self ts h :
  tensor_objs (final_heap (Function_call self ts h)) = tensor_objs h \/
  exists t, tensor_objs (final_heap (Function_call self ts h)) = tensor_objs h ++ [t].
Proof.
  destruct (Function_call self ts h) as [a h'|e h'] eqn:Hrun; simpl.
  - apply Function_call_Ok in Hrun
      as (f & x & y & cx & cy & tx & ty & _ & _ & _ & _ & _ & _ & _ & _ & ->).
    right. by eexists.
  - apply Function_call_Raise in Hrun as [Hts _]. by left.
Qed.

(** A call that is not a backward pass keeps the nodes it found and adds
    at most one. *)
Lemma run_call_tensors h c :
  is_Backward c = false ->
  tensor_objs (run_call h c) = tensor_objs h \/
  exists t, tensor_objs (run_call h c) = tensor_objs h ++ [t].
Proof.
  intros Hc. destruct c as [v|c|f ts|x y|fuel n g]; simpl; try done.
  - destruct v; simpl; try (by left). right. by eexists.
  - by left.
  - apply Function_call_tensors.
  - unfold Tensor_add, bind. simpl.
    apply (Function_call_tensors _ _
             (mkHeap (tensor_objs h) (function_objs h ++ [mkFunction Add_cls None None]))).
Qed.

(** X7. No call of the API removes or rebuilds a node: after any call, a
    node that existed is at the same address with the same data, creators
    and creation_op, and the number of nodes has grown by at most one.
    Only [backward] writes gradients: after any other call, succeeding or
    raising, every existing node is exactly as it was; and [backward]
    creates no node and touches no function object. *)
Theorem X7_nodes_persist h c a t (Ha : get_tensor h a = Some t) :
  (exists t',
     get_tensor (run_call h c) a = Some t' /\
     data t' = data t /\ creators t' = creators t /\ creation_op t' = creation_op t) /\
  (is_Backward c = false -> get_tensor (run_call h c) a = Some t) /\
  length (tensor_objs h) <= length (tensor_objs (run_call h c)) <= S (length (tensor_objs h)) /\
  (is_Backward c = true ->
   length (tensor_objs (run_call h c)) = length (tensor_objs h) /\
   function_objs (run_call h c) = function_objs h).
Proof.
  destruct (is_Backward c) eqn:Hc.
  - destruct c as [| | | |fuel n g]; try done. simpl.
    pose proof (backward_same_shape fuel n g h) as Hs.
    pose proof (same_shape_lookup _ _ a Hs) as Hl. rewrite Ha in Hl.
    pose proof (same_shape_length _ _ Hs) as Hlen.
    split; [|split; [done|split; [lia|]]].
    + destruct (get_tensor (final_heap (Tensor_backward fuel n g h)) a)
        as [t'|] eqn:Ha'; [|done].
      simpl in Hl. assert (strip t' = strip t) as Hst by congruence.
      apply strip_eq_fields in Hst as (? & ? & ?). exists t'. repeat split; done.
    + intros _. split; [done|]. by destruct Hs.
  - assert (get_tensor (run_call h c) a = Some t /\
            length (tensor_objs h) <= length (tensor_objs (run_call h c))
            <= S (length (tensor_objs h))) as [Hkeep Hlen].
    { unfold get_tensor in *.
      destruct (run_call_tensors h c Hc) as [->|[u ->]]; [split; [done|lia]|].
      split; [by apply lookup_app_l_Some|]. rewrite length_app. simpl. lia. }
    split; [by exists t|]. split; [done|]. split; [exact Hlen|done].
Qed.

Lemma X7_nodes_persist_witness :
  let h := final_heap (build_sum f1 f2 empty_heap) in
  get_tensor h 2 = Some (mkTensor f3 (Some [0; 1]) (Some 0) None) /\
  get_tensor (run_call h (Apply 0 [2])) 2 = Some (mkTensor f3 (Some [0; 1]) (Some 0) None) /\
  exists t',
    get_tensor (run_call h (Backward recursion_limit 2 (VFloat f4))) 2 = Some t' /\
    data t' = f3 /\ creators t' = Some [0; 1] /\ creation_op t' = Some 0.
Proof.
  intros h.
  assert (get_tensor h 2 = Some (mkTensor f3 (Some [0; 1]) (Some 0) None)) as Ha
    by reflexivity.
  split; [exact Ha|]. split.
  - exact (proj1 (proj2 (X7_nodes_persist h (Apply 0 [2]) 2 _ Ha)) eq_refl).
  - exact (proj1 (X7_nodes_persist h (Backward recursion_limit 2 (VFloat f4)) 2 _ Ha)).
Defined.

(** ** What a pass leaves alone *)

Section Bounded.
Variable fuel : nat.
Variable g : float.

Hypothesis backward_bounded_rec :
  forall n h a, exists k,
    k <= paths fuel h n a /\
    get_tensor (final_heap (Tensor_backward fuel n (VFloat g) h)) a
    = receive k g <$> get_tensor h a.

Lemma loop_bounded grads :
  (forall x, x ∈ grads -> x = g) ->
  forall cs i h a, exists k,
    k <= sum_list_with (fun c => paths fuel h c a) cs /\
    get_tensor
      (final_heap (for_enumerate (propagate (Tensor_backward fuel) grads) cs i h)) a
    = receive k g <$> get_tensor h a.
Proof.
  intros Hg cs. induction cs as [|c cs IH]; intros i h a; simpl.
  - exists 0. split; [lia|]. by rewrite receive_0_fmap.
  - unfold propagate at 1.
    destruct (grads !! i) as [gi|] eqn:Hi.
    2:{ exists 0. split; [lia|]. simpl. by rewrite receive_0_fmap. }
    assert (gi = g) as -> by (apply Hg; eapply list_elem_of_lookup_2; eauto).
    destruct (backward_bounded_rec c h a) as (k1 & Hk1 & H1).
    pose proof (backward_same_shape fuel c (VFloat g) h) as Hs.
    destruct (Tensor_backward fuel c (VFloat g) h) as [[] hm|e hm]; simpl in *.
    + destruct (IH (S i) hm a) as (k2 & Hk2 & H2).
      exists (k1 + k2). split.
      * assert (sum_list_with (fun c0 => paths fuel hm c0 a) cs
                = sum_list_with (fun c0 => paths fuel h c0 a) cs) as Hsum.
        { clear -Hs. induction cs as [|c' cs IHcs]; simpl; [done|].
          by rewrite (paths_same_shape fuel h hm Hs), IHcs. }
        lia.
      * rewrite H2, H1, <- option_fmap_compose.
        destruct (get_tensor h a); simpl; [|done]. by rewrite receive_add.
    + exists k1. split; [lia|done].
Qed.
End Bounded.

(** Returning or raising, a pass adds the incoming gradient to a node at
    most once per path that reaches it. *)
Lemma backward_bounded fuel g :
  forall n h a, exists k,
    k <= paths fuel h n a /\
    get_tensor (final_heap (Tensor_backward fuel n (VFloat g) h)) a
    = receive k g <$> get_tensor h a.
Proof.
  induction fuel as [|fuel IH]; intros n h a.
  { exists 0. split; [done|]. simpl. by rewrite receive_0_fmap. }
  simpl.
  destruct (get_tensor h n) as [t|] eqn:Ht.
  2:{ exists 0. split; [lia|]. simpl. by rewrite receive_0_fmap. }
  set (t1 := with_grad t (Some (accumulate (grad t) g))) in *.
  set (d := if decide (n = a) then 1 else 0).
  assert (get_tensor (set_tensor n t1 h) a = receive d g <$> get_tensor h a) as Hacc.
  { subst d. destruct (decide (n = a)) as [<-|Hne].
    - by rewrite (get_set_tensor_eq _ _ _ _ Ht), Ht.
    - by rewrite get_set_tensor_ne, receive_0_fmap. }
  assert (exists k, k <= d + 0 /\
            get_tensor (set_tensor n t1 h) a = receive k g <$> get_tensor h a) as Hstop.
  { exists d. split; [lia|done]. }
  destruct (creation_op t) as [op|]; [|done].
  assert (forall rest, exists k, k <= d + rest /\
            get_tensor (set_tensor n t1 h) a = receive k g <$> get_tensor h a) as Hstop'.
  { intros rest. exists d. split; [lia|done]. }
  destruct (get_function _ op) as [f|]; [|by destruct (creators t)].
  destruct (fn_class f); simpl; [by destruct (creators t)|].
  destruct (creators t) as [cs|]; [|done].
  assert (forall x, x ∈ [g; g] -> x = g) as Hgg.
  { intros x Hx. repeat (apply elem_of_cons in Hx as [->|Hx]; [done|]).
    by apply elem_of_nil in Hx. }
  destruct (loop_bounded fuel g IH [g; g] Hgg cs 0 (set_tensor n t1 h) a)
    as (k & Hk & Hrun).
  exists (d + k). split.
  - assert (sum_list_with (fun c => paths fuel (set_tensor n t1 h) c a) cs
            = sum_list_with (fun c => paths fuel h c a) cs) as Hsum.
    { pose proof (set_grad_same_shape h n t (Some (accumulate (grad t) g)) Ht) as Hs.
      fold t1 in Hs. clear -Hs.
      induction cs as [|c' cs IHcs]; simpl; [done|].
      by rewrite (paths_same_shape fuel _ _ Hs), IHcs. }
    lia.
  - rewrite Hrun, Hacc, <- option_fmap_compose.
    destruct (get_tensor h a); simpl; [|done]. by rewrite receive_add.
Qed.

(** X8. [backward] never writes a node that no path of creators reaches
    from the node it is called on: such a node is exactly as before,
    whether the call returns or raises, whatever the gradient passed. In a
    well-formed heap this holds of every node newer than the start node.
    And when the call returns, every node that a path does reach holds a
    gradient. *)
Theorem X8_unreached_nodes_untouched fuel n g h a
  (Hp : paths fuel h n a = 0) :
  get_tensor (final_heap (Tensor_backward fuel n g h)) a = get_tensor h a /\
  (forall fuel' n' g' h' b,
     well_formed h' = true -> n' < b ->
     get_tensor (final_heap (Tensor_backward fuel' n' g' h')) b = get_tensor h' b) /\
  (forall fuel' n' x h' h'' b t,
     Tensor_backward fuel' n' (VFloat x) h' = Ok tt h'' ->
     0 < paths fuel' h' n' b -> get_tensor h' b = Some t ->
     exists t' y, get_tensor h'' b = Some t' /\ grad t' = Some y).
Proof.
  assert (forall fuel' n' g' h' b, paths fuel' h' n' b = 0 ->
            get_tensor (final_heap (Tensor_backward fuel' n' g' h')) b
            = get_tensor h' b) as Hmain.
  { intros fuel' n' g' h' b Hz.
    destruct g' as [| | |x|]; try (by destruct fuel').
    destruct (backward_bounded fuel' x n' h' b) as (k & Hk & ->).
    assert (k = 0) as -> by lia. by rewrite receive_0_fmap. }
  split; [by apply Hmain|]. split.
  - intros fuel' n' g' h' b Hwf Hlt. apply Hmain. by apply paths_upward.
  - intros fuel' n' x h' h'' b t Hrun Hpos Hb.
    rewrite (backward_delivers _ _ _ _ _ Hrun b), Hb. simpl.
    destruct (paths fuel' h' n' b) as [|k]; [lia|].
    eexists _, _. split; [done|]. reflexivity.
Qed.

Lemma X8_unreached_nodes_untouched_witness :
  let h := final_heap (build_diamond f1 f2 f3 empty_heap) in
  paths recursion_limit h 3 2 = 0 /\
  get_tensor (final_heap (Tensor_backward recursion_limit 3 (VFloat f4) h)) 2
  = Some (mkTensor f3 None None None).
Proof.
  intros h. split; [reflexivity|].
  exact (proj1 (X8_unreached_nodes_untouched recursion_limit 3 (VFloat f4) h 2 eq_refl)).
Defined.

(** ** The recursion limit *)

Lemma backward_raises_recursion_only fuel :
  forall n g h e h',
    well_formed h = true ->
    n < length (tensor_objs h) ->
    Tensor_backward fuel n (VFloat g) h = Raise e h' ->
    e = RecursionError.
Proof.
  induction fuel as [|fuel IH]; intros n g h e h' Hwf Hn Hrun; simpl in Hrun.
  { by injection Hrun as <- _. }
  destruct (lookup_lt_is_Some_2 _ _ Hn) as [t Ht].
  fold (get_tensor h n) in Ht. rewrite Ht in Hrun.
  pose proof (proj1 (well_formed_spec h) Hwf n t Ht) as Hok.
  pose proof (set_grad_same_shape h n t (Some (accumulate (grad t) g)) Ht) as Hs1.
  set (h1 := set_tensor n _ h) in *.
  unfold node_ok in Hok.
  destruct (creation_op t) as [op|]; [|done].
  destruct (creators t) as [[|c1 [|c2 [|]]]|]; try done.
  change (get_function h1 op) with (get_function h op) in Hrun.
  destruct (get_function h op) as [f|]; [|done].
  apply andb_true_iff in Hok as [Hok Hc2]. apply andb_true_iff in Hok as [Hadd Hc1].
  apply Nat.ltb_lt in Hc1, Hc2.
  destruct (fn_class f); [done|]. simpl in Hrun. unfold propagate at 1 in Hrun.
  simpl in Hrun.
  pose proof (backward_same_shape fuel c1 (VFloat g) h1) as Hsm.
  destruct (Tensor_backward fuel c1 (VFloat g) h1) as [[] hm|e1 hm] eqn:Hm.
  2:{ injection Hrun as <- _. eapply (IH c1 g h1); [|..|exact Hm].
      - by eapply well_formed_same_shape.
      - rewrite (same_shape_length _ _ Hs1). lia. }
  simpl in Hsm. pose proof (same_shape_trans _ _ _ Hs1 Hsm) as Hs2.
  unfold propagate at 1 in Hrun. simpl in Hrun.
  destruct (Tensor_backward fuel c2 (VFloat g) hm) as [[] h2|e2 h2] eqn:H2; [done|].
  injection Hrun as <- _. eapply (IH c2 g hm); [|..|exact H2].
  - by eapply well_formed_same_shape.
  - rewrite (same_shape_length _ _ Hs2). lia.
Qed.

(** X9. On a well-formed heap (so on every heap built through the API),
    [backward] called with a float on an existing node can fail in one way
    only: by exhausting the recursion limit. It never raises [TypeError],
    [IndexError] or [NotImplementedError], never meets a dangling
    reference, and it returns as soon as the limit exceeds the address of
    the node. *)
Theorem X9_only_recursion_error fuel n g h
  (Hwf : well_formed h = true)
  (Hn : n < length (tensor_objs h)) :
  (forall e h', Tensor_backward fuel n (VFloat g) h = Raise e h' -> e = RecursionError) /\
  (n < fuel -> succeeded (Tensor_backward fuel n (VFloat g) h) = true) /\
  (fuel = 0 -> Tensor_backward fuel n (VFloat g) h = Raise RecursionError h).
Proof.
  split; [|split].
  - intros e h' Hrun. by eapply backward_raises_recursion_only.
  - intros Hfuel. by destruct (backward_returns fuel n g h Hwf Hn Hfuel) as [h' ->].
  - by intros ->.
Qed.

Lemma X9_only_recursion_error_witness :
  let h := final_heap (build_diamond f1 f2 f3 empty_heap) in
  well_formed h = true /\ 5 < length (tensor_objs h) /\
  (forall e h', Tensor_backward 2 5 (VFloat f1) h = Raise e h' -> e = RecursionError) /\
  succeeded (Tensor_backward 2 5 (VFloat f1) h) = false.
Proof.
  intros h.
  assert (well_formed h = true) as Hwf by reflexivity.
  assert (5 < length (tensor_objs h)) as Hlen by (simpl; lia).
  split; [exact Hwf|]. split; [exact Hlen|]. split; [|reflexivity].
  exact (proj1 (X9_only_recursion_error 2 5 f1 h Hwf Hlen)).
Defined.

Lemma for_enumerate_more_fuel (rec1 rec2 : nat -> value -> M unit) grads :
  (forall c v h o, rec1 c v h = o ->
     (forall h', o <> Raise RecursionError h') -> rec2 c v h = o) ->
  forall cs i h o,
    for_enumerate (propagate rec1 grads) cs i h = o ->
    (forall h', o <> Raise RecursionError h') ->
    for_enumerate (propagate rec2 grads) cs i h = o.
Proof.
  intros Hrec cs. induction cs as [|c cs IH]; intros i h o Hrun Hne; simpl in *; [done|].
  unfold propagate at 1 in Hrun. unfold propagate at 1.
  destruct (grads !! i) as [gi|]; [|done].
  destruct (rec1 c (VFloat gi) h) as [[] h1|e h1] eqn:H1.
  - rewrite (Hrec _ _ _ _ H1) by done. by apply IH.
  - subst o. rewrite (Hrec _ _ _ _ H1); [done|].
    intros h' [= -> _]. by apply (Hne h1).
Qed.

Lemma backward_more_fuel fuel :
  forall fuel' n g h o,
    Tensor_backward fuel n g h = o ->
    (forall h', o <> Raise RecursionError h') ->
    fuel <= fuel' ->
    Tensor_backward fuel' n g h = o.
Proof.
  induction fuel as [|fuel IH]; intros fuel' n g h o Hrun Hne Hle.
  { simpl in Hrun. subst o. by destruct (Hne h). }
  destruct fuel' as [|fuel']; [lia|]. simpl in *.
  destruct g as [| | |gr|]; try done.
  destruct (get_tensor h n) as [t|]; [|done].
  destruct (creation_op t) as [op|]; [|done].
  destruct (get_function _ op) as [f|]; [|done].
  destruct (backward_of (fn_class f) gr) as [e|grads]; [done|].
  destruct (creators t) as [cs|]; [|done].
  eapply for_enumerate_more_fuel; [|exact Hrun|exact Hne].
  intros c v h1 o1 H1 Hne1. apply (IH fuel'); [done|done|lia].
Qed.

(** X10. The outcome of [backward] does not depend on the recursion limit
    once the limit is not what stops it: on any heap, a call that returns,
    or that raises anything but [RecursionError], does exactly the same,
    with the same final heap, under every larger limit. *)
Theorem X10_limit_independent fuel fuel' n g h o
  (Hrun : Tensor_backward fuel n g h = o)
  (Hne : forall h', o <> Raise RecursionError h')
  (Hle : fuel <= fuel') :
  Tensor_backward fuel' n g h = o.
Proof. by eapply backward_more_fuel. Qed.

Lemma X10_limit_independent_witness :
  let h := final_heap (build_arity_mismatch empty_heap) in
  Tensor_backward 2 3 (VFloat f1) h
  = Raise IndexError
      (mkHeap [mkTensor f1 None None (Some f1); mkTensor f2 None None (Some f1);
               mkTensor f3 None None None;
               mkTensor f4 (Some [0; 1; 2]) (Some 0) (Some f1)]
              [mkFunction Add_cls None None]) /\
  2 <= recursion_limit /\
  Tensor_backward recursion_limit 3 (VFloat f1) h
  = Raise IndexError
      (mkHeap [mkTensor f1 None None (Some f1); mkTensor f2 None None (Some f1);
               mkTensor f3 None None None;
               mkTensor f4 (Some [0; 1; 2]) (Some 0) (Some f1)]
              [mkFunction Add_cls None None]).
Proof.
  intros h.
  assert (2 <= recursion_limit) as Hle by (unfold recursion_limit; lia).
  split; [reflexivity|]. split; [exact Hle|].
  apply (X10_limit_independent 2 recursion_limit 3 (VFloat f1) h _ eq_refl);
    [intros h' H; discriminate H|exact Hle].
Defined.

(** ** Passes from several nodes *)

Lemma heap_eq h h' :
  tensor_objs h = tensor_objs h' -> function_objs h = function_objs h' -> h = h'.
Proof. destruct h, h'. simpl. by intros -> ->. Qed.

(** X11. Two backward passes with the same gradient commute: on a
    well-formed heap, calling [backward(g)] on node [n1] and then on node
    [n2] leaves exactly the heap that calling it on [n2] and then on [n1]
    leaves (all four calls return when the recursion limit exceeds both
    addresses). *)
Theorem X11_equal_gradient_passes_commute h n1 n2 g fuel
  (Hwf : well_formed h = true)
  (H1 : n1 < length (tensor_objs h))
  (H2 : n2 < length (tensor_objs h))
  (Hf1 : n1 < fuel)
  (Hf2 : n2 < fuel) :
  exists h1 h2 h',
    Tensor_backward fuel n1 (VFloat g) h = Ok tt h1 /\
    Tensor_backward fuel n2 (VFloat g) h1 = Ok tt h' /\
    Tensor_backward fuel n2 (VFloat g) h = Ok tt h2 /\
    Tensor_backward fuel n1 (VFloat g) h2 = Ok tt h'.
Proof.
  assert (forall a b, a < length (tensor_objs h) -> b < length (tensor_objs h) ->
            a < fuel -> b < fuel ->
            exists ha hab,
              Tensor_backward fuel a (VFloat g) h = Ok tt ha /\
              Tensor_backward fuel b (VFloat g) ha = Ok tt hab /\
              function_objs hab = function_objs h /\
              forall x, get_tensor hab x
                        = receive (paths fuel h a x + paths fuel h b x) g
                            <$> get_tensor h x) as Hseq.
  { intros a b Ha Hb Hfa Hfb.
    destruct (backward_returns fuel a g h Hwf Ha Hfa) as [ha Hra].
    pose proof (backward_same_shape fuel a (VFloat g) h) as Hsa.
    rewrite Hra in Hsa. simpl in Hsa.
    destruct (backward_returns fuel b g ha) as [hab Hrb];
      [by eapply well_formed_same_shape|by rewrite (same_shape_length _ _ Hsa)|done|].
    pose proof (backward_same_shape fuel b (VFloat g) ha) as Hsb.
    rewrite Hrb in Hsb. simpl in Hsb.
    exists ha, hab. split; [done|]. split; [done|]. split.
    - destruct Hsa as [Ea _], Hsb as [Eb _]. congruence.
    - intros x.
      rewrite (backward_delivers _ _ _ _ _ Hrb x), (backward_delivers _ _ _ _ _ Hra x).
      rewrite (paths_same_shape fuel h ha Hsa), <- option_fmap_compose.
      destruct (get_tensor h x); simpl; [|done]. by rewrite receive_add. }
  destruct (Hseq n1 n2 H1 H2 Hf1 Hf2) as (h1 & h12 & Hr1 & Hr12 & Hfn12 & Hall12).
  destruct (Hseq n2 n1 H2 H1 Hf2 Hf1) as (h2 & h21 & Hr2 & Hr21 & Hfn21 & Hall21).
  assert (h21 = h12) as Heq.
  { apply heap_eq; [|congruence].
    apply list_eq. intros x. specialize (Hall12 x). specialize (Hall21 x).
    unfold get_tensor in *. rewrite Hall12, Hall21. by rewrite Nat.add_comm. }
  subst h21. by exists h1, h2, h12.
Qed.

Lemma X11_equal_gradient_passes_commute_witness :
  let h := final_heap (build_diamond f1 f2 f3 empty_heap) in
  well_formed h = true /\
  exists h1 h2 h',
    Tensor_backward recursion_limit 3 (VFloat f2) h = Ok tt h1 /\
    Tensor_backward recursion_limit 4 (VFloat f2) h1 = Ok tt h' /\
    Tensor_backward recursion_limit 4 (VFloat f2) h = Ok tt h2 /\
    Tensor_backward recursion_limit 3 (VFloat f2) h2 = Ok tt h'.
Proof.
  intros h.
  assert (well_formed h = true) as Hwf by reflexivity.
  split; [exact Hwf|].
  apply (X11_equal_gradient_passes_commute h 3 4 f2 recursion_limit Hwf);
    simpl; unfold recursion_limit; lia.
Defined.

(** ** Cost of shared subgraphs *)

(** On a well-formed heap, the paths from a node are those of any heap
    that extends it. *)
Lemma paths_extend h h' :
  well_formed h = true ->
  (forall b t, get_tensor h b = Some t -> get_tensor h' b = Some t) ->
  forall fuel n a, n < length (tensor_objs h) -> paths fuel h' n a = paths fuel h n a.
Proof.
  intros Hwf Hext fuel. induction fuel as [|fuel IH]; intros n a Hn; simpl; [done|].
  f_equal. destruct (lookup_lt_is_Some_2 _ _ Hn) as [t Ht].
  fold (get_tensor h n) in Ht. rewrite Ht, (Hext _ _ Ht).
  pose proof (proj1 (well_formed_spec h) Hwf n t Ht) as Hok.
  unfold node_ok in Hok.
  destruct (creation_op t) as [op|]; [|done].
  destruct (creators t) as [[|c1 [|c2 [|]]]|]; try done.
  destruct (get_function h op) as [f|]; [|done].
  apply andb_true_iff in Hok as [Hok Hc2]. apply andb_true_iff in Hok as [_ Hc1].
  apply Nat.ltb_lt in Hc1, Hc2. simpl.
  rewrite !IH by lia. done.
Qed.

Lemma doubling_run a n :
  exists h,
    doubling a n empty_heap = Ok n h /\
    length (tensor_objs h) = S n /\
    well_formed h = true /\
    get_tensor h 0 = Some (mkTensor a None None None) /\
    forall fuel, n < fuel -> paths fuel h n 0 = 2 ^ n.
Proof.
  induction n as [|n (h & Hrun & Hlen & Hwf & Hleaf & Hpaths)].
  - eexists. split; [reflexivity|]. split; [done|]. split; [done|]. split; [done|].
    intros [|fuel] Hfuel; [lia|]. reflexivity.
  - assert (n < length (tensor_objs h)) as Hn by lia.
    destruct (lookup_lt_is_Some_2 _ _ Hn) as [t Ht]. fold (get_tensor h n) in Ht.
    pose proof (Tensor_add_run n n h t t Ht Ht) as Hadd. rewrite Hlen in Hadd.
    eexists. split.
    { simpl. unfold bind. rewrite Hrun. exact Hadd. }
    split; [simpl; rewrite length_app, Hlen; simpl; lia|].
    assert (well_formed (final_heap (Tensor_add n n h)) = true) as Hwf'
      by apply (run_call_well_formed h (Plus n n) Hwf).
    rewrite Hadd in Hwf'. simpl in Hwf'.
    split; [exact Hwf'|].
    split; [unfold get_tensor in *; simpl; by apply lookup_app_l_Some|].
    intros [|fuel] Hfuel; [lia|]. simpl.
    unfold get_tensor at 1. simpl.
    rewrite (list_lookup_middle _ [] _ (S n)) by done. simpl.
    rewrite (paths_extend h _ Hwf) by (try done;
      intros b u Hb; unfold get_tensor in *; simpl; by apply lookup_app_l_Some).
    rewrite Hpaths by lia. lia.
Qed.

(** X12. Shared subgraphs are walked once per path, not once per node.
    After x = Tensor(a) and [n] doublings x = x + x, the graph has n + 1
    nodes and there are 2^n paths from the last node to the leaf: one
    call of [backward(g)] on the last node returns within a recursion depth
    of n + 1 and has added [g] to the gradient of the leaf 2^n times. *)
Theorem X12_doubling_tower a g n :
  exists h h',
    doubling a n empty_heap = Ok n h /\
    length (tensor_objs h) = S n /\
    paths (S n) h n 0 = 2 ^ n /\
    Tensor_backward (S n) n (VFloat g) h = Ok tt h' /\
    grad <$> get_tensor h' 0 = Some (deliver (2 ^ n) g None).
Proof.
  destruct (doubling_run a n) as (h & Hrun & Hlen & Hwf & Hleaf & Hpaths).
  destruct (backward_returns (S n) n g h Hwf) as [h' Hback]; [lia|lia|].
  exists h, h'. split; [done|]. split; [done|].
  split; [apply Hpaths; lia|]. split; [done|].
  rewrite (backward_delivers _ _ _ _ _ Hback 0), Hpaths, Hleaf by lia. done.
Qed.

(** ** Printing *)

Section ReprFacts.
Variable float_str : float -> string.
Variable object_str : fclass -> fref -> string.

Lemma map_exn_ext {E A B} (f f' : A -> E + B) (l : list A) :
  (forall x, x ∈ l -> f x = f' x) -> map_exn f l = map_exn f' l.
Proof.
  induction l as [|x l IH]; intros Hf; simpl; [done|].
  rewrite (Hf x) by apply list_elem_of_here.
  rewrite IH; [done|]. intros y Hy. apply Hf. by apply list_elem_of_further.
Qed.

Lemma repr_same_shape h h' :
  same_shape h h' ->
  forall fuel n,
    Tensor_repr float_str object_str fuel h' n = Tensor_repr float_str object_str fuel h n.
Proof.
  intros Hs fuel. induction fuel as [|fuel IH]; intros n; simpl; [done|].
  pose proof (same_shape_lookup h h' n Hs) as Hn.
  destruct (get_tensor h' n) as [t'|], (get_tensor h n) as [t|];
    simpl in Hn; try done.
  assert (strip t' = strip t) as Hst by congruence.
  apply strip_eq_fields in Hst as (-> & -> & ->).
  unfold get_function. destruct Hs as [-> _].
  destruct (creators t) as [cs|]; [|done].
  by rewrite (map_exn_ext (Tensor_repr float_str object_str fuel h')
                (Tensor_repr float_str object_str fuel h)) by (intros; apply IH).
Qed.

(** X13. [repr] of a tensor shows no gradient: it is a function of the
    data, creators and creation_ops alone. So a backward pass, returning
    or raising, whatever node it starts from, never changes what any
    tensor prints as (nor whether printing it fails). *)
Theorem X13_repr_ignores_gradients fuel fuel' n m g h :
  Tensor_repr float_str object_str fuel (final_heap (Tensor_backward fuel' m g h)) n
  = Tensor_repr float_str object_str fuel h n.
Proof. apply repr_same_shape, backward_same_shape. Qed.

Lemma string_length_app (s1 s2 : string) :
  String.length (s1 +:+ s2) = String.length s1 + String.length s2.
Proof. induction s1 as [|c s1 IH]; simpl; [done|]. by rewrite IH. Qed.

(** On a well-formed heap, what a node prints as does not change when the
    heap grows. *)
Lemma repr_extend h h' :
  well_formed h = true ->
  (forall b t, get_tensor h b = Some t -> get_tensor h' b = Some t) ->
  (forall r f, get_function h r = Some f -> get_function h' r = Some f) ->
  forall fuel n, n < length (tensor_objs h) ->
    Tensor_repr float_str object_str fuel h' n = Tensor_repr float_str object_str fuel h n.
Proof.
  intros Hwf Hext Hfext fuel. induction fuel as [|fuel IH]; intros n Hn; simpl; [done|].
  destruct (lookup_lt_is_Some_2 _ _ Hn) as [t Ht].
  fold (get_tensor h n) in Ht. rewrite Ht, (Hext _ _ Ht).
  pose proof (proj1 (well_formed_spec h) Hwf n t Ht) as Hok.
  unfold node_ok in Hok.
  destruct (creation_op t) as [op|]; [|by destruct (creators t)].
  destruct (creators t) as [[|c1 [|c2 [|]]]|]; try done.
  destruct (get_function h op) as [f|] eqn:Hf; [|done].
  apply andb_true_iff in Hok as [Hok Hc2]. apply andb_true_iff in Hok as [_ Hc1].
  apply Nat.ltb_lt in Hc1, Hc2. simpl.
  rewrite (Hfext _ _ Hf), !IH by lia. done.
Qed.

(** On a well-formed heap the recursion through creators ends: a node
    has one printed form, reached as soon as the nested calls followed
    outnumber its address. *)
Lemma repr_value h :
  well_formed h = true ->
  forall n, n < length (tensor_objs h) ->
    exists s, forall fuel, n < fuel -> Tensor_repr float_str object_str fuel h n = inr s.
Proof.
  intros Hwf n. induction n as [n IH] using lt_wf_ind. intros Hn.
  destruct (lookup_lt_is_Some_2 _ _ Hn) as [t Ht]. fold (get_tensor h n) in Ht.
  pose proof (proj1 (well_formed_spec h) Hwf n t Ht) as Hok.
  unfold node_ok in Hok.
  destruct (creation_op t) as [op|] eqn:Hop.
  2:{ destruct (creators t) eqn:Hcs; [done|]. eexists. intros [|fuel] Hfuel; [lia|].
      simpl. rewrite Ht, Hcs, Hop. reflexivity. }
  destruct (creators t) as [[|c1 [|c2 [|]]]|] eqn:Hcs; try done.
  destruct (get_function h op) as [f|] eqn:Hf; [|done].
  apply andb_true_iff in Hok as [Hok Hc2]. apply andb_true_iff in Hok as [_ Hc1].
  apply Nat.ltb_lt in Hc1, Hc2.
  destruct (IH c1) as [s1 H1]; [lia|lia|].
  destruct (IH c2) as [s2 H2]; [lia|lia|].
  eexists. intros [|fuel] Hfuel; [lia|].
  simpl. rewrite Ht, Hcs, Hop, Hf. simpl. rewrite H1, H2 by lia. reflexivity.
Qed.

(** X14. On a well-formed heap the recursion of [repr] through the
    creators ends: printing the node at address [n] nests at most n + 1
    calls of [__repr__], and the value it has when the interpreter lets
    it run to its end is the same string wherever the bound is put above
    that. A node without creators and producer prints as
    Tensor(data=d, creators=None, creation_op=None); a sum prints its two
    creators, both older nodes, in full and in order between brackets,
    and then its [Add] instance. *)
Theorem X14_repr_returns n h t
  (Hwf : well_formed h = true)
  (Ht : get_tensor h n = Some t) :
  exists s,
    (forall fuel, n < fuel -> Tensor_repr float_str object_str fuel h n = inr s) /\
    (creation_op t = None ->
     s = "Tensor(data=" +:+ float_str (data t)
         +:+ ", creators=None, creation_op=None)") /\
    (forall op, creation_op t = Some op ->
     exists c1 c2 s1 s2,
       creators t = Some [c1; c2] /\ c1 < n /\ c2 < n /\
       (forall fuel, c1 < fuel -> Tensor_repr float_str object_str fuel h c1 = inr s1) /\
       (forall fuel, c2 < fuel -> Tensor_repr float_str object_str fuel h c2 = inr s2) /\
       s = "Tensor(data=" +:+ float_str (data t)
           +:+ ", creators=" +:+ list_repr [s1; s2]
           +:+ ", creation_op=" +:+ object_str Add_cls op +:+ ")").
Proof.
  assert (n < length (tensor_objs h)) as Hn by (by eapply lookup_lt_Some).
  pose proof (proj1 (well_formed_spec h) Hwf n t Ht) as Hok.
  unfold node_ok in Hok.
  destruct (creation_op t) as [op|] eqn:Hop.
  2:{ destruct (creators t) eqn:Hcs; [done|]. eexists. split; [|split; [done|done]].
      intros [|fuel] Hfuel; [lia|]. simpl. rewrite Ht, Hcs, Hop. reflexivity. }
  destruct (creators t) as [[|c1 [|c2 [|]]]|] eqn:Hcs; try done.
  destruct (get_function h op) as [f|] eqn:Hf; [|done].
  apply andb_true_iff in Hok as [Hok Hc2]. apply andb_true_iff in Hok as [Hadd Hc1].
  apply Nat.ltb_lt in Hc1, Hc2.
  destruct (repr_value h Hwf c1) as [s1 H1]; [lia|].
  destruct (repr_value h Hwf c2) as [s2 H2]; [lia|].
  destruct (fn_class f) eqn:Hcls; [done|].
  exists ("Tensor(data=" +:+ float_str (data t)
          +:+ ", creators=" +:+ list_repr [s1; s2]
          +:+ ", creation_op=" +:+ object_str Add_cls op +:+ ")").
  split; [|split; [done|]].
  - intros [|fuel] Hfuel; [lia|].
    simpl. rewrite Ht, Hcs, Hop, Hf, Hcls. simpl. rewrite H1, H2 by lia. reflexivity.
  - intros op' [= <-]. by exists c1, c2, s1, s2.
Qed.
End ReprFacts.

Lemma X14_repr_returns_witness :
  let h := final_heap (build_sum f1 f2 empty_heap) in
  let float_str := fun x : float => if (x =? f3)%float then "3.0" else "?" in
  let object_str := fun (c : fclass) (r : nat) => "<Add>" in
  well_formed h = true /\
  exists s,
    (forall fuel, 2 < fuel -> Tensor_repr float_str object_str fuel h 2 = inr s) /\
    exists c1 c2 s1 s2,
      Some [0; 1] = Some [c1; c2] /\ c1 < 2 /\ c2 < 2 /\
      (forall fuel, c1 < fuel -> Tensor_repr float_str object_str fuel h c1 = inr s1) /\
      (forall fuel, c2 < fuel -> Tensor_repr float_str object_str fuel h c2 = inr s2) /\
      s = "Tensor(data=" +:+ "3.0" +:+ ", creators=" +:+ list_repr [s1; s2]
          +:+ ", creation_op=" +:+ "<Add>" +:+ ")".
Proof.
  intros h float_str object_str.
  assert (well_formed h = true) as Hwf by reflexivity.
  split; [exact Hwf|].
  destruct (X14_repr_returns float_str object_str 2 h
              (mkTensor f3 (Some [0; 1]) (Some 0) None) Hwf eq_refl)
    as (s & Hs & _ & Hsum).
  exists s. split; [exact Hs|]. exact (Hsum 0 eq_refl).
Defined.

Section ReprCost.
Variable float_str : float -> string.
Variable object_str : fclass -> fref -> string.

Lemma doubling_repr a n :
  exists h s,
    doubling a n empty_heap = Ok n h /\
    length (tensor_objs h) = S n /\
    well_formed h = true /\
    (forall fuel, n < fuel -> Tensor_repr float_str object_str fuel h n = inr s) /\
    (forall fuel, fuel <= n -> Tensor_repr float_str object_str fuel h n = inl Unfinished) /\
    2 ^ n <= String.length s.
Proof.
  induction n as [|n (h & s & Hrun & Hlen & Hwf & Hrepr & Hshort & Hsize)].
  - eexists _, _. split; [reflexivity|]. split; [done|]. split; [done|].
    split; [|split].
    + intros [|fuel] Hfuel; [lia|]. reflexivity.
    + intros [|fuel] Hfuel; [done|lia].
    + simpl. lia.
  - assert (n < length (tensor_objs h)) as Hn by lia.
    destruct (lookup_lt_is_Some_2 _ _ Hn) as [t Ht]. fold (get_tensor h n) in Ht.
    pose proof (Tensor_add_run n n h t t Ht Ht) as Hadd. rewrite Hlen in Hadd.
    assert (well_formed (final_heap (Tensor_add n n h)) = true) as Hwf'
      by apply (run_call_well_formed h (Plus n n) Hwf).
    rewrite Hadd in Hwf'. simpl in Hwf'.
    assert (forall fuel,
              Tensor_repr float_str object_str fuel (final_heap (Tensor_add n n h)) n
              = Tensor_repr float_str object_str fuel h n) as Hext.
    { intros fuel. rewrite Hadd. simpl.
      apply (repr_extend float_str object_str h _ Hwf); [| |done].
      - intros b u Hb. unfold get_tensor in *. simpl. by apply lookup_app_l_Some.
      - intros r f Hr. unfold get_function in *. simpl. by apply lookup_app_l_Some. }
    rewrite Hadd in Hext. simpl in Hext.
    eexists _, _. split.
    { simpl. unfold bind. rewrite Hrun. exact Hadd. }
    split; [simpl; rewrite length_app, Hlen; simpl; lia|].
    split; [exact Hwf'|]. split; [|split].
    + intros [|fuel] Hfuel; [lia|]. simpl.
      unfold get_tensor at 1. simpl.
      rewrite (list_lookup_middle _ [] _ (S n)) by done. simpl.
      rewrite Hext, Hrepr by lia. unfold get_function. simpl.
      rewrite (list_lookup_middle _ [] _ (length (function_objs h))) by done.
      simpl. reflexivity.
    + intros [|fuel] Hfuel; [done|]. simpl.
      unfold get_tensor at 1. simpl.
      rewrite (list_lookup_middle _ [] _ (S n)) by done. simpl.
      rewrite Hext, Hshort by lia. reflexivity.
    + unfold list_repr. simpl String.concat.
      rewrite !string_length_app. rewrite Nat.pow_succ_r'. lia.
Qed.

(** X15. Printing repeats shared subgraphs: [repr] of a node prints each
    creator in full. After x = Tensor(a) and [n] doublings x = x + x, a
    graph of n + 1 nodes, printing the last node nests exactly n + 1
    calls of [__repr__] (a bound of [n] or fewer nested calls does not
    reach the end), and the value it has when the interpreter lets it run
    to its end is a string of at least 2^n characters, whatever the
    formatting of floats and of function objects. *)
Theorem X15_repr_of_shared_graph a n :
  exists h s,
    doubling a n empty_heap = Ok n h /\
    length (tensor_objs h) = S n /\
    (forall fuel, n < fuel -> Tensor_repr float_str object_str fuel h n = inr s) /\
    (forall fuel, fuel <= n -> Tensor_repr float_str object_str fuel h n = inl Unfinished) /\
    2 ^ n <= String.length s.
Proof.
  destruct (doubling_repr a n) as (h & s & Hrun & Hlen & _ & Hrepr & Hshort & Hsize).
  by exists h, s.
Qed.
End ReprCost.

(** ** Gradients and operands that do not match in number *)

Lemma backward_leaf fuel g h c :
  is_leaf h c ->
  Tensor_backward (S fuel) c (VFloat g) h = Ok tt (accumulate_at g h c).
Proof.
  intros (t & Ht & Hop). simpl. unfold accumulate_at. by rewrite Ht, Hop.
Qed.

Lemma is_leaf_accumulate_at g h a c :
  is_leaf h c -> is_leaf (accumulate_at g h a) c.
Proof.
  intros (t & Ht & Hop). unfold accumulate_at.
  destruct (get_tensor h a) as [ta|] eqn:Ha; [|by exists t].
  destruct (decide (a = c)) as [->|Hne].
  - eexists. rewrite (get_set_tensor_eq _ _ _ _ Ha). split; [done|].
    simpl. congruence.
  - exists t. by rewrite get_set_tensor_ne.
Qed.

Lemma backward_unfold fuel n g h :
  Tensor_backward (S fuel) n (VFloat g) h
  = match get_tensor h n with
    | None => Raise InvalidReference h
    | Some t =>
        let h1 := set_tensor n (with_grad t (Some (accumulate (grad t) g))) h in
        match creation_op t with
        | None => Ok tt h1
        | Some op =>
            match get_function h1 op with
            | None => Raise InvalidReference h1
            | Some f =>
                match backward_of (fn_class f) g with
                | inl e => Raise e h1
                | inr grads =>
                    match creators t with
                    | None => Raise TypeError h1
                    | Some cs =>
                        for_enumerate (propagate (Tensor_backward fuel) grads) cs 0 h1
                    end
                end
            end
        end
    end.
Proof. reflexivity. Qed.

(** X16. The loop of [backward] walks the creators and indexes the
    gradients, so the two lengths are not compared. For a node whose
    producer is an [Add] (two gradients) and whose creators are leaves:
    with no, one or two creators the call returns, each creator having
    received [g] and a surplus gradient being dropped silently; with three
    or more it raises [IndexError] at the third, after the node and its
    first two creators have accumulated [g]; later creators are never
    reached. *)
Theorem X16_gradient_count_mismatch fuel n g h t op f cs
  (Ht : get_tensor h n = Some t)
  (Hop : creation_op t = Some op)
  (Hf : get_function h op = Some f)
  (Hcls : fn_class f = Add_cls)
  (Hcs : creators t = Some cs)
  (Hleaves : Forall (is_leaf h) (take 2 cs)) :
  Tensor_backward (S (S fuel)) n (VFloat g) h
  = (if length cs <=? 2 then Ok tt else Raise IndexError)
      (foldl (accumulate_at g) (accumulate_at g h n) (take 2 cs)).
Proof.
  assert (accumulate_at g h n
          = set_tensor n (with_grad t (Some (accumulate (grad t) g))) h) as Hn
    by (unfold accumulate_at; by rewrite Ht).
  rewrite backward_unfold, Ht. cbv zeta. rewrite Hop.
  change (get_function (set_tensor n _ h) op) with (get_function h op).
  rewrite Hf, Hcls, Hcs, <- Hn. cbn [backward_of Add_backward].
  destruct cs as [|c1 [|c2 cs]]; [done| |].
  - apply Forall_cons in Hleaves as [H1 _].
    cbn [for_enumerate take foldl length Nat.leb]. unfold propagate. simpl lookup. cbv beta iota.
    rewrite backward_leaf by (by apply is_leaf_accumulate_at). done.
  - apply Forall_cons in Hleaves as [H1 Hleaves].
    apply Forall_cons in Hleaves as [H2 _].
    cbn [for_enumerate take foldl]. unfold propagate at 1. simpl lookup. cbv beta iota.
    rewrite backward_leaf by (by apply is_leaf_accumulate_at).
    unfold propagate at 1. simpl lookup. cbv beta iota.
    rewrite backward_leaf by (by do 2 apply is_leaf_accumulate_at).
    destruct cs as [|c3 cs]; [done|].
    cbn [for_enumerate]. unfold propagate at 1. simpl lookup. done.
Qed.

Lemma X16_gradient_count_mismatch_witness :
  let h := final_heap (build_arity_mismatch empty_heap) in
  Tensor_backward recursion_limit 3 (VFloat f1) h
  = Raise IndexError
      (foldl (accumulate_at f1) (accumulate_at f1 h 3) [0; 1]).
Proof.
  intros h.
  refine (X16_gradient_count_mismatch 998 3 f1 h
            (mkTensor f4 (Some [0; 1; 2]) (Some 0) None) 0
            (mkFunction Add_cls None None) [0; 1; 2]
            eq_refl eq_refl eq_refl eq_refl eq_refl _).
  repeat constructor; eexists; split; reflexivity.
Defined.
